(** * Include/exclude filters of velero's [pkg/util/collections]

    A shallow embedding of [includes_excludes.go]: the string sets behind
    the filter, glob matching over them, the filter itself, the validator
    and the generator, followed by the properties of the filter that the
    specification states. *)

From Stdlib Require Import Ascii Sorting.Sorted.
From stdpp Require Import base decidable option list sorting sets gmap strings.

Set Warnings "-clear-no-such-hyp,-inconsistent-scopes".

(** ** [k8s.io/apimachinery/pkg/util/sets]: the [sets.String] type

    [sets.String] is a Go map keyed by strings, used as a set.  [Insert]
    assigns every item in turn, [Has] is key lookup, [Len] is the number of
    keys, and [List] collects the keys and sorts them with [sort.Strings],
    that is by byte-wise lexicographic order. *)
Module sets.

Definition Insert (s : gset string) (items : list string) : gset string :=
  foldl (λ acc item, {[ item ]} ∪ acc) s items.

Definition NewString (items : list string) : gset string :=
  Insert ∅ items.

Definition Has (s : gset string) (item : string) : bool :=
  bool_decide (item ∈ s).

Definition Len (s : gset string) : nat := size s.

Definition List (s : gset string) : list string :=
  merge_sort String.le (elements s).

End sets.

(** ** [github.com/gobwas/glob]: the interface the filter relies on

    [glob.Compile] either returns a compiled glob or an error, and a
    compiled glob decides [Match] on a candidate.  The filter only looks at
    whether compilation failed, so the error carries no payload here. *)
Class Glob := {
  glob : Type;
  Compile : string → option glob;
  Match : glob → string → bool;
}.

Section filter.
Context `{G : Glob}.

(** [globStringSet] wraps a [sets.String]. *)
Record globStringSet := { String_ : gset string }.

Definition newGlobStringSet : globStringSet :=
  {| String_ := sets.NewString [] |}.

(** The loop of [globStringSet.match] over the items still to visit. *)
Fixpoint match_items (items : list string) (candidate : string) : bool :=
  match items with
  | [] => false
  | item :: rest =>
      match Compile item with
      | None => false
      | Some g => if Match g candidate then true else match_items rest candidate
      end
  end.

Definition match_ (gss : globStringSet) (candidate : string) : bool :=
  match_items (sets.List (String_ gss)) candidate.

Record IncludesExcludes := {
  includes : globStringSet;
  excludes : globStringSet;
}.

Definition NewIncludesExcludes : IncludesExcludes :=
  {| includes := newGlobStringSet; excludes := newGlobStringSet |}.

(** The Go methods mutate the receiver and return it; here the updated
    filter is the result. *)
Definition Includes (ie : IncludesExcludes) (items : list string) : IncludesExcludes :=
  {| includes := {| String_ := sets.Insert (String_ (includes ie)) items |};
     excludes := excludes ie |}.

Definition GetIncludes (ie : IncludesExcludes) : list string :=
  sets.List (String_ (includes ie)).

Definition Excludes (ie : IncludesExcludes) (items : list string) : IncludesExcludes :=
  {| includes := includes ie;
     excludes := {| String_ := sets.Insert (String_ (excludes ie)) items |} |}.

Definition GetExcludes (ie : IncludesExcludes) : list string :=
  sets.List (String_ (excludes ie)).

Definition ShouldInclude (ie : IncludesExcludes) (s : string) : bool :=
  if match_ (excludes ie) s then false
  else (sets.Len (String_ (includes ie)) =? 0)%nat
       || sets.Has (String_ (includes ie)) "*"
       || match_ (includes ie) s.

Definition IncludeEverything (ie : IncludesExcludes) : bool :=
  (sets.Len (String_ (excludes ie)) =? 0)%nat
  && ((sets.Len (String_ (includes ie)) =? 0)%nat
      || ((sets.Len (String_ (includes ie)) =? 1)%nat
          && sets.Has (String_ (includes ie)) "*")).

End filter.

(** ** The validator

    Go's [error] values are represented by their messages. *)
Module errors.

Definition error := string.

Definition New (msg : string) : error := msg.

(** [errors.Errorf] with a format that ends in its only verb. *)
Definition Errorf (prefix : string) (arg : string) : error := prefix +:+ arg.

End errors.

Definition errWildcardIncludes : errors.error :=
  errors.New "includes list must either contain '*' only, or a non-empty list of items".

Definition errWildcardExcludes : errors.error :=
  errors.New "excludes list cannot contain '*'".

Definition errOverlap (itm : string) : errors.error :=
  errors.Errorf "excludes list cannot contain an item in the includes list: " itm.

Definition ValidateIncludesExcludes (includesList excludesList : list string)
  : list errors.error :=
  let errs := [] in
  let includes := sets.NewString includesList in
  let excludes := sets.NewString excludesList in
  let errs :=
    if (1 <? sets.Len includes)%nat && sets.Has includes "*"
    then errs ++ [errWildcardIncludes] else errs in
  let errs :=
    if sets.Has excludes "*" then errs ++ [errWildcardExcludes] else errs in
  foldl (λ errs itm, if sets.Has includes itm then errs ++ [errOverlap itm] else errs)
        errs (sets.List excludes).

(** ** The generator *)

Definition GenerateIncludesExcludes (includes excludes : list string)
    (mapFunc : string → string) : IncludesExcludes :=
  let res := NewIncludesExcludes in
  let res :=
    foldl (λ res item,
             if String.eqb item "*" then Includes res [item]
             else
               let key := mapFunc item in
               if String.eqb key "" then res else Includes res [key])
          res includes in
  foldl (λ res item,
           if String.eqb item "*" then res
           else
             let key := mapFunc item in
             if String.eqb key "" then res else Excludes res [key])
        res excludes.

(** ** [k8s.io/apimachinery/pkg/runtime/schema]: group/resource names *)
Module schema.

Record GroupResource := { gr_Group : string; gr_Resource : string }.

Record GroupVersionResource :=
  { Group : string; Version : string; Resource : string }.

(** [strings.Index] for the one-byte separator, returning the text before
    and after its first occurrence. *)
Fixpoint cut (sep : Ascii.ascii) (s : string) : option (string * string) :=
  match s with
  | "" => None
  | String c s' =>
      if Ascii.eqb c sep then Some ("", s')
      else prod_map (String c) id <$> cut sep s'
  end.

Definition ParseGroupResource (gr : string) : GroupResource :=
  match cut "."%char gr with
  | Some (resource, group) => {| gr_Group := group; gr_Resource := resource |}
  | None => {| gr_Group := ""; gr_Resource := gr |}
  end.

Definition WithVersion (gr : GroupResource) (version : string) : GroupVersionResource :=
  {| Group := gr_Group gr; Version := version; Resource := gr_Resource gr |}.

Definition GroupResource_of (gvr : GroupVersionResource) : GroupResource :=
  {| gr_Group := Group gvr; gr_Resource := Resource gvr |}.

Definition String (gr : GroupResource) : string :=
  if (String.length (gr_Group gr) =? 0)%nat then gr_Resource gr
  else gr_Resource gr +:+ "." +:+ gr_Group gr.

End schema.

(** ** [pkg/discovery]: the resolver the generator is instantiated with

    [Helper.ResourceFor] returns a resolved group-version-resource together
    with its API resource, or an error. *)
Module discovery.

Class Helper := {
  APIResource : Type;
  ResourceFor :
    schema.GroupVersionResource →
    schema.GroupVersionResource * APIResource + errors.error;
}.

End discovery.

Section resources.
Context `{helper : discovery.Helper}.

(** The closure handed to [GenerateIncludesExcludes]. *)
Definition resolve (item : string) : string :=
  match discovery.ResourceFor
          (schema.WithVersion (schema.ParseGroupResource item) "") with
  | inr _ => item
  | inl (gvr, _) => schema.String (schema.GroupResource_of gvr)
  end.

Definition GetResourceIncludesExcludes (includes excludes : list string)
  : IncludesExcludes :=
  GenerateIncludesExcludes includes excludes resolve.

End resources.

(** ** A glob library to run the filter on

    The glob library, [github.com/gobwas/glob], is an external dependency
    and not part of the sources.  The module below gives an instance of
    [Glob] for the pattern syntax without brace alternatives and without
    separators: literal text with backslash escapes, [?], [*], [**],
    character lists [[abc]], [[!abc]] and ranges [[a-z]], [[!a-z]].
    Patterns and candidates are read byte by byte, which is how the library
    reads ASCII text. *)
Module gobwas.

Inductive node :=
| Text (c : ascii)
| Any
| Super
| Single
| List (chars : list ascii) (not : bool)
| Range (lo hi : ascii) (not : bool).

(** Where the lexer is: in text, or at one of the stages of a character
    class. *)
Inductive mode :=
| InText (escaped : bool)
| InRange (seenNot : bool)
| WantHi (not : bool) (lo : ascii)
| InRangeText (not : bool) (escaped : bool) (chars : list ascii)
| WantClose (n : node).

Definition is_nul (c : ascii) : bool := (nat_of_ascii c =? 0)%nat.

(** The node for a finished list of characters, if there is one. *)
Definition close_list (not : bool) (chars : list ascii) (k : option (list node))
  : option (list node) :=
  match chars with
  | [] => None
  | _ => cons (List chars not) <$> k
  end.

(** Modelled from the spec: the pattern compiler of the glob library, which
    the sources import.  The specification asks for patterns with [*]
    matching everything, with the usual wildcards, and for patterns that
    fail to compile.  A character class that is never closed, has no
    content or has its bounds in the wrong order does not compile.
    Patterns with an opening brace are outside the fragment and are
    rejected. *)
Fixpoint parse (m : mode) (p : string) : option (list node) :=
  match p with
  | EmptyString =>
      match m with
      | InText _ => Some []
      | _ => None
      end
  | String r p' =>
      match m with
      | InText true => cons (Text r) <$> parse (InText false) p'
      | InText false =>
          if Ascii.eqb r "\" then parse (InText true) p'
          else if Ascii.eqb r "*" then
            match p' with
            | String r' p'' =>
                if Ascii.eqb r' "*" then cons Super <$> parse (InText false) p''
                else cons Any <$> parse (InText false) p'
            | EmptyString => cons Any <$> parse (InText false) p'
            end
          else if Ascii.eqb r "?" then cons Single <$> parse (InText false) p'
          else if Ascii.eqb r "[" then parse (InRange false) p'
          else if Ascii.eqb r "{" then None
          else cons (Text r) <$> parse (InText false) p'
      | InRange seenNot =>
          if negb seenNot && Ascii.eqb r "!" then parse (InRange true) p'
          else
            match p' with
            | String r' p'' =>
                if Ascii.eqb r' "-" then parse (WantHi seenNot r) p''
                else if Ascii.eqb r "\" then parse (InRangeText seenNot true []) p'
                else if Ascii.eqb r "]" then None
                else parse (InRangeText seenNot false [r]) p'
            | EmptyString => None
            end
      | WantHi not lo =>
          if is_nul lo || is_nul r || (nat_of_ascii r <? nat_of_ascii lo)%nat then None
          else parse (WantClose (Range lo r not)) p'
      | InRangeText not true chars => parse (InRangeText not false (chars ++ [r])) p'
      | InRangeText not false chars =>
          if Ascii.eqb r "\" then parse (InRangeText not true chars) p'
          else if Ascii.eqb r "]" then close_list not chars (parse (InText false) p')
          else parse (InRangeText not false (chars ++ [r])) p'
      | WantClose n =>
          if Ascii.eqb r "]" then cons n <$> parse (InText false) p' else None
      end
  end.

Definition matches_one (n : node) (c : ascii) : bool :=
  match n with
  | Text c' => Ascii.eqb c c'
  | Any | Super | Single => true
  | List chars not => negb (Bool.eqb (existsb (Ascii.eqb c) chars) not)
  | Range lo hi not =>
      negb (Bool.eqb ((nat_of_ascii lo <=? nat_of_ascii c)%nat
                      && (nat_of_ascii c <=? nat_of_ascii hi)%nat) not)
  end.

Definition is_star (n : node) : bool :=
  match n with Any | Super => true | _ => false end.

(** Modelled from the spec: the matcher of the glob library.  A pattern
    matches the whole candidate; [*] and [**] stand for any run of
    characters, [?] and the classes for one character. *)
Fixpoint matches (ns : list node) (s : string) : bool :=
  match ns with
  | [] => match s with EmptyString => true | _ => false end
  | n :: ns' =>
      if is_star n then
        (fix skip (s : string) : bool :=
           matches ns' s
           || match s with
              | EmptyString => false
              | String _ s' => skip s'
              end) s
      else
        match s with
        | EmptyString => false
        | String c s' => matches_one n c && matches ns' s'
        end
  end.

Definition Compile_ (pattern : string) : option (list node) :=
  parse (InText false) pattern.

Definition lib : Glob :=
  {| glob := list node; Compile := Compile_; Match := matches |}.

End gobwas.

(** * What the properties speak of *)

(** ** Patterns, candidates and the order of the scan *)
Section notions.
Context `{G : Glob}.
Implicit Types (s : gset string) (gss : globStringSet) (ie : IncludesExcludes).
Implicit Types (p q c : string).

(** A pattern that [glob.Compile] rejects. *)
Definition malformed p : Prop := Compile p = None.

(** The candidate [c] matches the pattern [p], taken on its own. *)
Definition glob_matches p c : Prop :=
  ∃ g, Compile p = Some g ∧ Match g c = true.

(** [q] comes strictly before [p] in the order of [sets.List]. *)
Definition sorts_before q p : Prop := strict String.le q p.

(** The candidate matches some pattern of the set. *)
Definition matches_some s c : Prop := ∃ p, p ∈ s ∧ glob_matches p c.

(** The candidate matches a pattern of the set that the scan reaches: no
    malformed pattern of the set sorts before it. *)
Definition matches_reached s c : Prop :=
  ∃ p, p ∈ s ∧ glob_matches p c ∧ ∀ q, q ∈ s → sorts_before q p → ¬ malformed q.

(** The exclude-wins rule with "matches" read pattern by pattern, as the
    specification words it. *)
Definition exclude_wins_as_stated ie c : Prop :=
  (matches_some (String_ (excludes ie)) c → ShouldInclude ie c = false)
  ∧ (¬ matches_some (String_ (excludes ie)) c →
     (ShouldInclude ie c = true ↔
      String_ (includes ie) = ∅ ∨ "*" ∈ String_ (includes ie)
      ∨ matches_some (String_ (includes ie)) c)).

(** The specification's reading of the short circuit: one malformed
    pattern anywhere in the set silences the whole set. *)
Definition match_degrades_as_stated gss c : Prop :=
  (∃ p, p ∈ String_ gss ∧ malformed p) → match_ gss c = false.

(** The claim that a wildcard among the excludes rejects everything. *)
Definition excludes_wildcard_as_stated ie : Prop :=
  "*" ∈ String_ (excludes ie) → ∀ c, ShouldInclude ie c = false.

End notions.

(** ** Listings, violations and generated keys *)
Section more_notions.
Implicit Types (includesList excludesList raw : list string).
Implicit Types (mapFunc : string → string) (k : string).

(** How often [x] occurs in a list. *)
Definition occurrences (x : string) (l : list string) : nat :=
  length (filter (λ y, y = x) l).

Definition wildcard_with_others includesList : bool :=
  (1 <? sets.Len (sets.NewString includesList))%nat
  && sets.Has (sets.NewString includesList) "*".

Definition wildcard_excluded excludesList : bool :=
  sets.Has (sets.NewString excludesList) "*".

Definition overlap includesList excludesList : gset string :=
  sets.NewString includesList ∩ sets.NewString excludesList.

(** A raw entry that the mapping function turns into the key [k]. *)
Definition mapped_from mapFunc raw k : Prop :=
  ∃ item, item ∈ raw ∧ item ≠ "*" ∧ mapFunc item = k ∧ k ≠ "".

(** A mapping function that sends "x" to the wildcard and leaves every
    other entry alone. *)
Definition x_to_wildcard (item : string) : string :=
  if String.eqb item "x" then "*" else item.

End more_notions.

(** The bodies of the two loops of the generator. *)
Abbreviation include_body mapFunc :=
  (λ res item,
     if String.eqb item "*" then Includes res [item]
     else if String.eqb (mapFunc item) "" then res
          else Includes res [mapFunc item]) (only parsing).

Abbreviation exclude_body mapFunc :=
  (λ res item,
     if String.eqb item "*" then res
     else if String.eqb (mapFunc item) "" then res
          else Excludes res [mapFunc item]) (only parsing).

(** ** Failing resolutions *)
Section resolver_notions.
Context `{helper : discovery.Helper}.
Implicit Types (rawIncludes rawExcludes : list string) (item : string).

(** The resolver returns an error for the entry. *)
Definition resolution_fails item : Prop :=
  ∃ err,
    discovery.ResourceFor
      (schema.WithVersion (schema.ParseGroupResource item) "") = inr err.

(** The fallback as the specification words it: every entry that fails
    to resolve is found unchanged in the generated set. *)
Definition resolver_fallback_as_stated rawIncludes rawExcludes : Prop :=
  ∀ item,
    resolution_fails item →
    (item ∈ rawIncludes →
     item ∈ String_ (includes (GetResourceIncludesExcludes rawIncludes rawExcludes)))
    ∧ (item ∈ rawExcludes →
       item ∈ String_ (excludes (GetResourceIncludesExcludes rawIncludes rawExcludes))).

End resolver_notions.

(** ** Sample filters and a sample cluster *)

(** Excludes "[" and "a": the scan meets "[" first. *)
Definition ie_bracket_a : IncludesExcludes :=
  Excludes NewIncludesExcludes ["a"; "["].

(** Excludes "![" and "*": the scan meets "![" first. *)
Definition ie_bang_bracket_star : IncludesExcludes :=
  Excludes NewIncludesExcludes ["*"; "!["].

(** Excludes "*" and "!x", includes "pods". *)
Definition ie_star_pods : IncludesExcludes :=
  Includes (Excludes NewIncludesExcludes ["*"; "!x"]) ["pods"].

(** Excludes "A*" and "[": the scan meets "A*" first. *)
Definition ie_Astar_bracket : IncludesExcludes :=
  Excludes NewIncludesExcludes ["["; "A*"].

Definition gss_bracket_a : globStringSet :=
  {| String_ := sets.NewString ["a"; "["] |}.

Definition gss_A_bracket : globStringSet :=
  {| String_ := sets.NewString ["["; "A"] |}.

(** A cluster that serves pods and deployments and nothing else. *)
Definition pods_gvr : schema.GroupVersionResource :=
  {| schema.Group := ""; schema.Version := "v1"; schema.Resource := "pods" |}.

Definition deployments_gvr : schema.GroupVersionResource :=
  {| schema.Group := "apps"; schema.Version := "v1";
     schema.Resource := "deployments" |}.

Definition small_cluster_ResourceFor (input : schema.GroupVersionResource)
  : schema.GroupVersionResource * unit + errors.error :=
  if String.eqb (schema.Resource input) "pods"
     && String.eqb (schema.Group input) ""
  then inl (pods_gvr, ())
  else if String.eqb (schema.Resource input) "deployments"
          && (String.eqb (schema.Group input) ""
              || String.eqb (schema.Group input) "apps")
  then inl (deployments_gvr, ())
  else inr (errors.New "resource not found").

Definition small_cluster : discovery.Helper :=
  {| discovery.APIResource := unit;
     discovery.ResourceFor := small_cluster_ResourceFor |}.

(** * The rest of [includes_excludes.go] *)

(** ** Rendering the lists *)
Module strings.

(** [strings.Join]: the elements with the separator between neighbours. *)
Definition Join (elems : list string) (sep : string) : string :=
  String.concat sep elems.

End strings.

Definition asString (in_ : list string) (empty : string) : string :=
  if (length in_ =? 0)%nat then empty else strings.Join in_ ", ".

Definition IncludesString (ie : IncludesExcludes) : string :=
  asString (GetIncludes ie) "*".

Definition ExcludesString (ie : IncludesExcludes) : string :=
  asString (GetExcludes ie) "<none>".

(** ** Validating namespaces

    [k8s.io/apimachinery/pkg/api/validation] decides which names are valid
    and returns one message for each rule a name breaks; [fmt] renders the
    name for the [%q] verb.  Both are taken as they come. *)
Module validation.

Class NamespaceNames := {
  ValidateNamespaceName : string → bool → list string;
}.

End validation.

Module fmt.

Class Verbs := {
  Quote : string → string;
}.

End fmt.

Section namespaces.
Context `{names : validation.NamespaceNames} `{verbs : fmt.Verbs}.

Definition errInvalidNamespace (ns msg : string) : errors.error :=
  errors.New ("invalid namespace " +:+ fmt.Quote ns +:+ ": " +:+ msg).

Definition validateNamespaceName (ns : string) : list errors.error :=
  foldl (λ errs msg, errs ++ [errInvalidNamespace ns msg])
        [] (validation.ValidateNamespaceName ns false).

Definition ValidateNamespaceIncludesExcludes (includesList excludesList : list string)
  : list errors.error :=
  let errs := ValidateIncludesExcludes includesList excludesList in
  let includes := sets.NewString includesList in
  let excludes := sets.NewString excludesList in
  let errs :=
    foldl (λ errs itm,
             if negb (String.eqb itm "*") then errs ++ validateNamespaceName itm
             else errs)
          errs (sets.List includes) in
  foldl (λ errs itm,
           if negb (String.eqb itm "*") then errs ++ validateNamespaceName itm
           else errs)
        errs (sets.List excludes).

(** The names of a list that are handed to the namespace validator, in the
    order of the loop. *)
Definition validated_names (l : list string) : list string :=
  filter (λ itm, itm ≠ "*") (sets.List (sets.NewString l)).

End namespaces.

(** ** More samples *)

(** Includes "pods" and "*.apps", excludes "secrets"; every pattern
    compiles. *)
Definition ie_pods_apps : IncludesExcludes :=
  Includes (Excludes NewIncludesExcludes ["secrets"]) ["pods"; "*.apps"].

(** A validator with two rules: a name is not empty and has at most 63
    characters. *)
Definition sample_names : validation.NamespaceNames :=
  {| validation.ValidateNamespaceName ns _ :=
       (if String.eqb ns "" then ["must not be empty"] else [])
       ++ (if (63 <? String.length ns)%nat
           then ["must be no more than 63 characters"] else []) |}.

(** The same rules, and the wildcard is not a name. *)
Definition picky_names : validation.NamespaceNames :=
  {| validation.ValidateNamespaceName ns prefix :=
       if String.eqb ns "*" then ["must not be a wildcard"]
       else validation.ValidateNamespaceName (NamespaceNames := sample_names) ns prefix |}.

(** Names between double quotes. *)
Definition sample_verbs : fmt.Verbs :=
  {| fmt.Quote s := String "034" (s +:+ String "034" "") |}.

(** * Properties *)

(** ** The string sets *)
Section sets_facts.
Implicit Types (s : gset string) (items : list string) (x : string).

Lemma Insert_union s items : sets.Insert s items = list_to_set items ∪ s.
Proof.
  unfold sets.Insert. revert s.
  induction items as [|item items IH]; intros s; simpl.
  - set_solver.
  - rewrite IH. set_solver.
Qed.

Lemma elem_of_Insert s items x : x ∈ sets.Insert s items ↔ x ∈ items ∨ x ∈ s.
Proof. rewrite Insert_union. set_solver. Qed.

Lemma elem_of_NewString items x : x ∈ sets.NewString items ↔ x ∈ items.
Proof. unfold sets.NewString. rewrite elem_of_Insert. set_solver. Qed.

Lemma Has_true s x : sets.Has s x = true ↔ x ∈ s.
Proof. unfold sets.Has. apply bool_decide_eq_true. Qed.

Lemma Has_false s x : sets.Has s x = false ↔ x ∉ s.
Proof. unfold sets.Has. apply bool_decide_eq_false. Qed.

Lemma List_Permutation s : sets.List s ≡ₚ elements s.
Proof. apply merge_sort_Permutation. Qed.

Lemma elem_of_List s x : x ∈ sets.List s ↔ x ∈ s.
Proof. rewrite List_Permutation. apply elem_of_elements. Qed.

Lemma NoDup_List s : NoDup (sets.List s).
Proof. rewrite List_Permutation. apply NoDup_elements. Qed.

Lemma length_List s : length (sets.List s) = sets.Len s.
Proof. unfold sets.Len. by rewrite List_Permutation. Qed.

Lemma Sorted_List s : Sorted String.le (sets.List s).
Proof. apply (Sorted_merge_sort String.le). Qed.

Lemma StronglySorted_List s : StronglySorted String.le (sets.List s).
Proof. apply (StronglySorted_merge_sort String.le). Qed.

(** [List] is the only sorted enumeration of the set. *)
Lemma List_unique s l :
  Sorted String.le l → NoDup l → (∀ x, x ∈ l ↔ x ∈ s) → sets.List s = l.
Proof.
  intros Hsorted Hnodup Hl.
  apply (Sorted_unique String.le); auto using Sorted_List.
  apply NoDup_Permutation; auto using NoDup_List.
  intros x. by rewrite elem_of_List, Hl.
Qed.

Lemma Len_0 s : sets.Len s = 0 ↔ s = ∅.
Proof. unfold sets.Len. rewrite size_empty_iff. by unfold_leibniz. Qed.

Lemma Len_1_Has s x : sets.Len s = 1 ∧ x ∈ s ↔ s = {[ x ]}.
Proof.
  unfold sets.Len. split.
  - intros [Hsize Hx]. apply size_1_elem_of in Hsize as [y Hy].
    apply leibniz_equiv in Hy. set_solver.
  - intros ->. split; [apply size_singleton | set_solver].
Qed.

End sets_facts.

(** ** Scanning a pattern set *)
Section match_facts.
Context `{G : Glob}.
Implicit Types (s : gset string) (gss : globStringSet) (p q c : string).

Lemma malformed_not_matches p c : malformed p → ¬ glob_matches p c.
Proof. unfold malformed. intros Hp (g & Hg & _). congruence. Qed.

Lemma match_items_true items c :
  match_items items c = true ↔
  ∃ pre p post, items = pre ++ p :: post ∧ glob_matches p c
                ∧ Forall (λ q, ¬ malformed q) pre.
Proof.
  induction items as [|item rest IH]; simpl.
  - split; [done|]. intros (pre & p & post & Heq & _). by destruct pre.
  - destruct (Compile item) as [g|] eqn:Hitem.
    + destruct (Match g c) eqn:Hmatch.
      * split; [intros _|done].
        exists [], item, rest. repeat split; [by exists g | constructor].
      * rewrite IH. split.
        -- intros (pre & p & post & -> & Hp & Hpre).
           exists (item :: pre), p, post. repeat split; [done|].
           constructor; [unfold malformed; congruence | done].
        -- intros (pre & p & post & Heq & Hp & Hpre).
           destruct pre as [|q pre]; simplify_eq/=.
           ++ destruct Hp as (g' & ? & ?). congruence.
           ++ exists pre, p, post. repeat split; [done|].
              by apply Forall_cons_1 in Hpre as [_ ?].
    + split; [done|]. intros (pre & p & post & Heq & Hp & Hpre).
      destruct pre as [|q pre]; simplify_eq/=.
      * by destruct (malformed_not_matches p c).
      * apply Forall_cons_1 in Hpre as [Hq _]. by destruct Hq.
Qed.

(** In a sorted enumeration without duplicates, the patterns before a
    position are those that sort before its pattern. *)
Lemma sorted_split_before s pre p post q :
  sets.List s = pre ++ p :: post →
  q ∈ pre ↔ q ∈ s ∧ sorts_before q p.
Proof.
  intros Heq.
  pose proof (StronglySorted_List s) as Hsorted.
  pose proof (NoDup_List s) as Hnodup.
  rewrite Heq in Hsorted, Hnodup.
  apply NoDup_app in Hnodup as (_ & Hpre & Hnodup).
  apply NoDup_cons in Hnodup as [Hpost _].
  apply StronglySorted_app in Hsorted as (Hle & _ & Hsorted).
  apply StronglySorted_cons in Hsorted as [Hafter _].
  rewrite Forall_forall in Hafter.
  split.
  - intros Hq. split.
    + apply elem_of_List. rewrite Heq. set_solver.
    + split; [apply Hle; set_solver|].
      intros Hpq. assert (q = p) as ->.
      { apply (anti_symm String.le); [apply Hle; set_solver | done]. }
      apply (Hpre p); set_solver.
  - intros [Hq [Hqp Hpq]]. apply elem_of_List in Hq. rewrite Heq in Hq.
    apply elem_of_app in Hq as [Hq|Hq]; [done|].
    apply elem_of_cons in Hq as [->|Hq]; [done|].
    destruct Hpq. by apply Hafter.
Qed.

(** What [globStringSet.match] computes. *)
Lemma match_true gss c :
  match_ gss c = true ↔ matches_reached (String_ gss) c.
Proof.
  unfold match_. rewrite match_items_true. split.
  - intros (pre & p & post & Heq & Hp & Hpre).
    exists p. split; [|split; [done|]].
    + apply elem_of_List. rewrite Heq. set_solver.
    + intros q Hq Hqp. rewrite Forall_forall in Hpre. apply Hpre.
      by apply (sorted_split_before _ _ _ _ _ Heq).
  - intros (p & Hp & Hmatch & Hbefore).
    apply elem_of_List, list_elem_of_split in Hp as (pre & post & Heq).
    exists pre, p, post. repeat split; [done..|].
    apply Forall_forall. intros q Hq.
    apply (sorted_split_before _ _ _ _ _ Heq) in Hq as [? ?]. by apply Hbefore.
Qed.

Lemma match_false gss c :
  match_ gss c = false ↔ ¬ matches_reached (String_ gss) c.
Proof. rewrite <-match_true. by destruct (match_ gss c). Qed.

Lemma matches_reached_some s c : matches_reached s c → matches_some s c.
Proof. intros (p & ? & ? & _). by exists p. Qed.

(** Without malformed patterns the scan reaches every pattern. *)
Lemma matches_some_reached s c :
  (∀ q, q ∈ s → ¬ malformed q) → matches_some s c → matches_reached s c.
Proof. intros Hs (p & ? & ?). exists p. naive_solver. Qed.

End match_facts.

(** ** The filter *)
Section filter_facts.
Context `{G : Glob}.
Implicit Types (ie : IncludesExcludes) (gss : globStringSet) (p q c : string).

Lemma ShouldInclude_true ie c :
  ShouldInclude ie c = true ↔
  match_ (excludes ie) c = false
  ∧ (String_ (includes ie) = ∅ ∨ "*" ∈ String_ (includes ie)
     ∨ match_ (includes ie) c = true).
Proof.
  unfold ShouldInclude. rewrite <-Len_0, <-Has_true.
  destruct (match_ (excludes ie) c); [naive_solver|].
  rewrite !orb_true_iff, Nat.eqb_eq. naive_solver.
Qed.

(** C1 (amended): a candidate that matches an exclude pattern which no
    malformed exclude pattern sorts before is rejected, whatever the
    includes hold; any other candidate is accepted exactly when the include
    set is empty, or holds the literal "*", or the candidate matches an
    include pattern which no malformed include pattern sorts before. *)
Theorem ShouldInclude_exclude_wins ie c :
  (matches_reached (String_ (excludes ie)) c → ShouldInclude ie c = false)
  ∧ (¬ matches_reached (String_ (excludes ie)) c →
     (ShouldInclude ie c = true ↔
      String_ (includes ie) = ∅ ∨ "*" ∈ String_ (includes ie)
      ∨ matches_reached (String_ (includes ie)) c)).
Proof.
  split.
  - intros Hex. apply not_true_is_false. rewrite ShouldInclude_true.
    intros [Hno _]. by apply match_false in Hno.
  - intros Hex. rewrite ShouldInclude_true, match_false, match_true.
    naive_solver.
Qed.

(** X4: when every pattern of the filter compiles, the exclude-wins rule
    holds pattern by pattern, as the specification words it. *)
Lemma exclude_wins_well_formed ie c :
  (∀ q, q ∈ String_ (excludes ie) → ¬ malformed q) →
  (∀ q, q ∈ String_ (includes ie) → ¬ malformed q) →
  exclude_wins_as_stated ie c.
Proof.
  intros Hex Hin.
  assert (∀ s, (∀ q, q ∈ s → ¬ malformed q) →
               matches_some s c ↔ matches_reached s c) as Hiff.
  { split; auto using matches_some_reached, matches_reached_some. }
  unfold exclude_wins_as_stated.
  rewrite !(Hiff _ Hex), (Hiff _ Hin). split.
  - intros Hm. apply not_true_is_false. rewrite ShouldInclude_true.
    intros [Hno _]. by apply match_false in Hno.
  - intros Hm. rewrite ShouldInclude_true, match_false, match_true.
    naive_solver.
Qed.

(** C2 (amended): when the set holds a malformed pattern and the candidate
    matches none of the patterns that sort before it, [match] returns
    false: the scan stops at the malformed pattern and every pattern that
    sorts after it, even one equal to the candidate, goes unseen. *)
Theorem match_malformed_short_circuit gss c p :
  p ∈ String_ gss →
  malformed p →
  (∀ q, q ∈ String_ gss → sorts_before q p → ¬ glob_matches q c) →
  match_ gss c = false.
Proof.
  intros Hp Hbad Hbefore. apply match_false.
  intros (p0 & Hp0 & Hmatch & Hreach).
  destruct (decide (p0 = p)) as [->|Hne].
  { by apply (malformed_not_matches p c). }
  destruct (total String.le p0 p) as [Hle|Hle].
  - apply (Hbefore p0); [done| |done].
    split; [done|]. intros Hge. by apply Hne, (anti_symm String.le).
  - apply (Hreach p); [done| |done].
    split; [done|]. intros Hge. by apply Hne, (anti_symm String.le).
Qed.

(** C8 (amended): with a glob library whose pattern "*" matches every
    candidate, a filter whose excludes hold the literal "*", and no
    malformed pattern sorting before it, rejects every candidate, whatever
    the includes hold. *)
Theorem ShouldInclude_excludes_wildcard ie c :
  (∀ c', glob_matches "*" c') →
  "*" ∈ String_ (excludes ie) →
  (∀ q, q ∈ String_ (excludes ie) → sorts_before q "*" → ¬ malformed q) →
  ShouldInclude ie c = false.
Proof.
  intros Hstar Hin Hbefore. apply not_true_is_false.
  rewrite ShouldInclude_true. intros [Hno _].
  apply match_false in Hno. apply Hno. by exists "*".
Qed.

End filter_facts.

(** ** The filter on the glob fragment *)
Section glob_examples.
#[local] Existing Instance gobwas.lib.

Lemma star_matches_all c : glob_matches "*" c.
Proof.
  exists [gobwas.Any]. split; [done|].
  induction c as [|a c IH]; [done|]. exact IH.
Qed.

Lemma bracket_malformed : malformed "[".
Proof. reflexivity. Qed.

Lemma bang_bracket_malformed : malformed "![".
Proof. reflexivity. Qed.

Lemma literal_a_matches : glob_matches "a" "a".
Proof. by exists [gobwas.Text "a"]. Qed.

Lemma literal_A_matches : glob_matches "A" "A".
Proof. by exists [gobwas.Text "A"]. Qed.

(** What the code returns on the sample filters and sets. *)
Lemma ShouldInclude_bracket_a : ShouldInclude ie_bracket_a "a" = true.
Proof. reflexivity. Qed.

Lemma ShouldInclude_bang_bracket_star : ShouldInclude ie_bang_bracket_star "a" = true.
Proof. reflexivity. Qed.

Lemma match_A_bracket : match_ gss_A_bracket "A" = true.
Proof. reflexivity. Qed.

Lemma GetExcludes_bracket_a : GetExcludes ie_bracket_a = ["["; "a"].
Proof. reflexivity. Qed.

Lemma GetExcludes_bang_bracket_star : GetExcludes ie_bang_bracket_star = ["!["; "*"].
Proof. reflexivity. Qed.

(** C1, counterexample: "a" matches the exclude pattern "a", yet the
    filter accepts it, because "[" sorts first and stops the scan. *)
Lemma exclude_wins_counterexample : ¬ exclude_wins_as_stated ie_bracket_a "a".
Proof.
  intros [Hwins _].
  assert (ShouldInclude ie_bracket_a "a" = false) as Hfalse.
  { apply Hwins. exists "a". split; [|apply literal_a_matches].
    apply elem_of_Insert. set_solver. }
  rewrite ShouldInclude_bracket_a in Hfalse. discriminate.
Qed.

(** C1, witness: "A*" sorts before the malformed "[", so "ABC" is rejected;
    "zzz" matches no exclude pattern and is accepted, the includes being
    empty. *)
Lemma ShouldInclude_exclude_wins_witness :
  matches_reached (String_ (excludes ie_Astar_bracket)) "ABC"
  ∧ ShouldInclude ie_Astar_bracket "ABC" = false
  ∧ ¬ matches_reached (String_ (excludes ie_Astar_bracket)) "zzz"
  ∧ ShouldInclude ie_Astar_bracket "zzz" = true.
Proof.
  assert (matches_reached (String_ (excludes ie_Astar_bracket)) "ABC") as Hreach.
  { exists "A*". split; [apply elem_of_Insert; set_solver|].
    split; [by exists [gobwas.Text "A"; gobwas.Any]|].
    intros q Hq [Hle Hnle] _. apply elem_of_Insert in Hq.
    set_unfold in Hq. destruct Hq as [[->|[->|[]]]|[]]; [exact Hle | by apply Hnle]. }
  assert (¬ matches_reached (String_ (excludes ie_Astar_bracket)) "zzz") as Hnot.
  { by apply (match_false (excludes ie_Astar_bracket)). }
  split; [exact Hreach|].
  split; [exact (proj1 (ShouldInclude_exclude_wins ie_Astar_bracket "ABC") Hreach)|].
  split; [exact Hnot|].
  apply (proj2 (ShouldInclude_exclude_wins ie_Astar_bracket "zzz") Hnot).
  by left.
Defined.

(** C2, counterexample: the set holds the malformed "[" and the pattern
    "A", and the candidate "A" still matches, because "A" sorts first. *)
Lemma match_degrades_counterexample : ¬ match_degrades_as_stated gss_A_bracket "A".
Proof.
  intros Hdeg.
  assert (match_ gss_A_bracket "A" = false) as Hfalse.
  { apply Hdeg. exists "[". split; [|apply bracket_malformed].
    apply elem_of_NewString. set_solver. }
  rewrite match_A_bracket in Hfalse. discriminate.
Qed.

(** C2, witness: with "[" and "a" the candidate "a" does not match. *)
Lemma match_malformed_short_circuit_witness :
  "[" ∈ String_ gss_bracket_a
  ∧ malformed "["
  ∧ (∀ q, q ∈ String_ gss_bracket_a → sorts_before q "[" → ¬ glob_matches q "a")
  ∧ match_ gss_bracket_a "a" = false.
Proof.
  assert ("[" ∈ String_ gss_bracket_a) as Hin.
  { apply elem_of_NewString. set_solver. }
  assert (∀ q, q ∈ String_ gss_bracket_a → sorts_before q "[" → ¬ glob_matches q "a")
    as Hbefore.
  { intros q Hq [Hle Hnle] _. apply elem_of_NewString in Hq.
    set_unfold in Hq. destruct Hq as [->|[->|[]]]; [exact Hle | by apply Hnle]. }
  split; [exact Hin|]. split; [exact bracket_malformed|]. split; [exact Hbefore|].
  exact (match_malformed_short_circuit gss_bracket_a "a" "[" Hin bracket_malformed Hbefore).
Defined.

(** C8, counterexample: the excludes hold "*", yet "a" is accepted,
    because the malformed "![" sorts before "*". *)
Lemma excludes_wildcard_counterexample :
  ¬ excludes_wildcard_as_stated ie_bang_bracket_star.
Proof.
  intros Hall.
  assert (ShouldInclude ie_bang_bracket_star "a" = false) as Hfalse.
  { apply Hall. apply elem_of_Insert. set_solver. }
  rewrite ShouldInclude_bang_bracket_star in Hfalse. discriminate.
Qed.

(** C8, witness: "!x" sorts before "*" and compiles, so "pods" is rejected
    although the includes name it. *)
Lemma ShouldInclude_excludes_wildcard_witness :
  (∀ c', glob_matches "*" c')
  ∧ "*" ∈ String_ (excludes ie_star_pods)
  ∧ (∀ q, q ∈ String_ (excludes ie_star_pods) → sorts_before q "*" → ¬ malformed q)
  ∧ ShouldInclude ie_star_pods "pods" = false.
Proof.
  assert ("*" ∈ String_ (excludes ie_star_pods)) as Hin.
  { apply elem_of_Insert. set_solver. }
  assert (∀ q, q ∈ String_ (excludes ie_star_pods) → sorts_before q "*" → ¬ malformed q)
    as Hbefore.
  { intros q Hq _. apply elem_of_Insert in Hq.
    set_unfold in Hq. destruct Hq as [[->|[->|[]]]|[]]; discriminate. }
  split; [exact star_matches_all|]. split; [exact Hin|]. split; [exact Hbefore|].
  exact (ShouldInclude_excludes_wildcard ie_star_pods "pods" star_matches_all Hin Hbefore).
Defined.

End glob_examples.

(** ** Building and listing a filter *)
Section listing_facts.
Implicit Types (ie : IncludesExcludes) (s : gset string) (x : string).

Lemma occurrences_NoDup x (l : list string) :
  NoDup l → x ∈ l → occurrences x l = 1.
Proof.
  unfold occurrences. induction 1 as [|y l Hy Hl IH]; intros Hx.
  - by apply elem_of_nil in Hx.
  - rewrite filter_cons. apply elem_of_cons in Hx as [->|Hx].
    + rewrite decide_True by done. simpl. f_equal.
      apply length_zero_iff_nil, elem_of_nil_inv.
      intros z Hz. by apply list_elem_of_filter in Hz as [-> ?].
    + rewrite decide_False by (by intros ->). auto.
Qed.

Lemma Insert_idempotent s items :
  sets.Insert (sets.Insert s items) items = sets.Insert s items.
Proof. rewrite !Insert_union. set_solver. Qed.

Lemma Insert_Permutation s (l l' : list string) :
  l ≡ₚ l' → sets.Insert s l = sets.Insert s l'.
Proof. intros Hl. rewrite !Insert_union. by rewrite Hl. Qed.

(** C3: [IncludeEverything] holds exactly when the exclude set is empty
    and the include set is empty or is the set with the single element
    "*". *)
Theorem IncludeEverything_iff ie :
  IncludeEverything ie = true ↔
  String_ (excludes ie) = ∅
  ∧ (String_ (includes ie) = ∅ ∨ String_ (includes ie) = {[ "*" ]}).
Proof.
  unfold IncludeEverything.
  rewrite andb_true_iff, orb_true_iff, andb_true_iff, !Nat.eqb_eq, Has_true.
  by rewrite !Len_0, Len_1_Has.
Qed.

(** C7: adding a pattern a second time changes nothing: the size and the
    listing are those after the first addition, and the listing holds the
    pattern exactly once.  This holds for the underlying set and for both
    sides of the filter. *)
Theorem Includes_idempotent ie s x :
  (sets.Len (sets.Insert (sets.Insert s [x]) [x]) = sets.Len (sets.Insert s [x])
   ∧ sets.List (sets.Insert (sets.Insert s [x]) [x]) = sets.List (sets.Insert s [x])
   ∧ occurrences x (sets.List (sets.Insert (sets.Insert s [x]) [x])) = 1)
  ∧ (Includes (Includes ie [x]) [x] = Includes ie [x]
     ∧ length (GetIncludes (Includes (Includes ie [x]) [x]))
       = length (GetIncludes (Includes ie [x]))
     ∧ occurrences x (GetIncludes (Includes (Includes ie [x]) [x])) = 1)
  ∧ (Excludes (Excludes ie [x]) [x] = Excludes ie [x]
     ∧ length (GetExcludes (Excludes (Excludes ie [x]) [x]))
       = length (GetExcludes (Excludes ie [x]))
     ∧ occurrences x (GetExcludes (Excludes (Excludes ie [x]) [x])) = 1).
Proof.
  assert (∀ s', occurrences x (sets.List (sets.Insert s' [x])) = 1) as Honce.
  { intros s'. apply occurrences_NoDup; [apply NoDup_List|].
    rewrite elem_of_List, elem_of_Insert. set_solver. }
  split; [|split].
  - rewrite Insert_idempotent. auto.
  - unfold Includes, GetIncludes; cbn [includes excludes String_].
    rewrite Insert_idempotent. auto.
  - unfold Excludes, GetExcludes; cbn [includes excludes String_].
    rewrite Insert_idempotent. auto.
Qed.

End listing_facts.

(** ** The order of the scan *)
Section scan_order.
Context `{G : Glob}.
Implicit Types (ie : IncludesExcludes) (gss : globStringSet) (c : string).

Lemma sorts_before_asymm p q : sorts_before p q → sorts_before q p → False.
Proof. intros [? Hn] [? ?]. by apply Hn. Qed.

Lemma sorts_before_irrefl p : ¬ sorts_before p p.
Proof. intros [? Hn]. by apply Hn. Qed.

(** C9: [GetIncludes] and [GetExcludes] list the stored patterns in
    lexicographic order without repetition, whatever the order in which
    they were added.  [match] scans that listing, for a set of any size: it
    returns true exactly when the listing holds a pattern that matches the
    candidate with only well-formed patterns before it, that is, when the
    candidate matches a pattern that no malformed pattern of the set sorts
    before.  So the result does not depend on the order of insertion, and a
    malformed pattern suppresses a match or not by where it sorts: a match
    that sorts before every malformed pattern is found, and a malformed
    pattern that sorts before every match hides them all. *)
Theorem GetIncludes_GetExcludes_sorted :
  (∀ ie,
     (Sorted String.le (GetIncludes ie) ∧ NoDup (GetIncludes ie)
      ∧ ∀ x, x ∈ GetIncludes ie ↔ x ∈ String_ (includes ie))
     ∧ (Sorted String.le (GetExcludes ie) ∧ NoDup (GetExcludes ie)
        ∧ ∀ x, x ∈ GetExcludes ie ↔ x ∈ String_ (excludes ie)))
  ∧ (∀ ie (l l' : list string),
       l ≡ₚ l' →
       GetIncludes (Includes ie l) = GetIncludes (Includes ie l')
       ∧ GetExcludes (Excludes ie l) = GetExcludes (Excludes ie l'))
  ∧ (∀ gss c,
       match_ gss c = true ↔
       ∃ pre p post,
         sets.List (String_ gss) = pre ++ p :: post
         ∧ glob_matches p c ∧ Forall (λ q, ¬ malformed q) pre)
  ∧ (∀ gss c, match_ gss c = true ↔ matches_reached (String_ gss) c)
  ∧ (∀ (l l' : list string) c,
       l ≡ₚ l' →
       match_ {| String_ := sets.NewString l |} c
       = match_ {| String_ := sets.NewString l' |} c)
  ∧ (∀ gss bad good c,
       bad ∈ String_ gss → good ∈ String_ gss →
       malformed bad → glob_matches good c →
       ((∀ q, q ∈ String_ gss → sorts_before q good → ¬ malformed q) →
        match_ gss c = true)
       ∧ ((∀ q, q ∈ String_ gss → sorts_before q bad → ¬ glob_matches q c) →
          match_ gss c = false))
  ∧ (∀ bad good c (l : list string),
       malformed bad → glob_matches good c → l ≡ₚ [bad; good] →
       (sorts_before good bad → match_ {| String_ := sets.NewString l |} c = true)
       ∧ (sorts_before bad good → match_ {| String_ := sets.NewString l |} c = false)).
Proof.
  refine (conj _ (conj _ (conj _ (conj _ (conj _ (conj _ _)))))).
  - intros ie. unfold GetIncludes, GetExcludes.
    repeat split; auto using Sorted_List, NoDup_List; apply elem_of_List.
  - intros ie l l' Hl. unfold GetIncludes, GetExcludes, Includes, Excludes.
    cbn [includes excludes String_].
    by rewrite (Insert_Permutation (String_ (includes ie)) l l'),
               (Insert_Permutation (String_ (excludes ie)) l l').
  - intros gss c. unfold match_. apply match_items_true.
  - intros gss c. apply match_true.
  - intros l l' c Hl. unfold sets.NewString.
    by rewrite (Insert_Permutation ∅ l l').
  - intros gss bad good c Hbad_in Hgood_in Hbad Hgood. split.
    + intros Hreach. apply match_true. by exists good.
    + intros Hbefore. apply match_false.
      intros (p & Hp & Hmatch & Hreach).
      destruct (decide (p = bad)) as [->|Hne].
      { by apply (malformed_not_matches bad c). }
      destruct (total String.le p bad) as [Hle|Hle].
      * apply (Hbefore p); [done| |done].
        split; [done|]. intros Hge. by apply Hne, (anti_symm String.le).
      * apply (Hreach bad); [done| |done].
        split; [done|]. intros Hge. by apply Hne, (anti_symm String.le).
  - intros bad good c l Hbad Hgood Hl.
    assert (∀ q, q ∈ sets.NewString l ↔ q = bad ∨ q = good) as Hmem.
    { intros q. rewrite elem_of_NewString, Hl. set_solver. }
    split; intros Horder.
    + apply match_true. exists good. cbn [String_].
      split; [apply Hmem; auto|]. split; [done|].
      intros q [->| ->]%Hmem Hq _.
      * by apply (sorts_before_asymm bad good).
      * by apply (sorts_before_irrefl good).
    + apply match_false. intros (p & [->| ->]%Hmem & Hp & Hreach).
      * by apply (malformed_not_matches bad c).
      * apply (Hreach bad); [apply Hmem; auto|done..].
Qed.

End scan_order.

Section scan_order_examples.
#[local] Existing Instance gobwas.lib.

(** C9 on the glob fragment: "A" sorts before the malformed "[", which
    sorts before "a".  In the set of all three, "A" is found and "a" is
    hidden; the two-pattern sets behave alike in either order of
    insertion. *)
Lemma GetIncludes_GetExcludes_sorted_witness :
  (match_ {| String_ := sets.NewString ["a"; "["; "A"] |} "A" = true
   ∧ match_ {| String_ := sets.NewString ["a"; "["; "A"] |} "a" = false)
  ∧ (match_ {| String_ := sets.NewString ["["; "A"] |} "A" = true
     ∧ match_ {| String_ := sets.NewString ["A"; "["] |} "A" = true)
  ∧ (match_ {| String_ := sets.NewString ["["; "a"] |} "a" = false
     ∧ match_ {| String_ := sets.NewString ["a"; "["] |} "a" = false)
  ∧ GetIncludes (Includes NewIncludesExcludes ["b"; "a"; "c"])
    = GetIncludes (Includes NewIncludesExcludes ["c"; "b"; "a"]).
Proof.
  destruct (GetIncludes_GetExcludes_sorted (G := gobwas.lib))
    as (_ & Horder & _ & _ & _ & Hany & Hscan).
  assert (sorts_before "A" "[") as HA by (split; [done | by intros []]).
  assert (sorts_before "[" "a") as Ha by (split; [done | by intros []]).
  assert (["b"; "a"; "c"] ≡ₚ ["c"; "b"; "a"]) as Hperm by solve_Permutation.
  set (three := {| String_ := sets.NewString ["a"; "["; "A"] |}).
  assert (∀ q, q ∈ String_ three → q = "a" ∨ q = "[" ∨ q = "A") as Hthree.
  { intros q Hq. apply elem_of_NewString in Hq. set_unfold in Hq. tauto. }
  assert ("[" ∈ String_ three) as Hbad_in by (apply elem_of_NewString; set_solver).
  assert ("A" ∈ String_ three) as HA_in by (apply elem_of_NewString; set_solver).
  assert ("a" ∈ String_ three) as Ha_in by (apply elem_of_NewString; set_solver).
  assert (∀ q, q ∈ String_ three → sorts_before q "A" → ¬ malformed q) as Hreach.
  { intros q [->|[->| ->]]%Hthree [Hle Hnle] _; [exact Hle|exact Hle|by apply Hnle]. }
  assert (∀ q, q ∈ String_ three → sorts_before q "[" → ¬ glob_matches q "a")
    as Hhidden.
  { intros q [->|[->| ->]]%Hthree [Hle Hnle] (g & Hg & Hm).
    - exact Hle.
    - by apply Hnle.
    - by injection Hg as <-. }
  split; [|split; [|split]].
  - split.
    + exact (proj1 (Hany three "[" "A" "A" Hbad_in HA_in
                      bracket_malformed literal_A_matches) Hreach).
    + exact (proj2 (Hany three "[" "a" "a" Hbad_in Ha_in
                      bracket_malformed literal_a_matches) Hhidden).
  - split.
    + exact (proj1 (Hscan "[" "A" "A" ["["; "A"]
                      bracket_malformed literal_A_matches (reflexivity _)) HA).
    + exact (proj1 (Hscan "[" "A" "A" ["A"; "["]
                      bracket_malformed literal_A_matches (Permutation_swap _ _ _)) HA).
  - split.
    + exact (proj2 (Hscan "[" "a" "a" ["["; "a"]
                      bracket_malformed literal_a_matches (reflexivity _)) Ha).
    + exact (proj2 (Hscan "[" "a" "a" ["a"; "["]
                      bracket_malformed literal_a_matches (Permutation_swap _ _ _)) Ha).
  - exact (proj1 (Horder NewIncludesExcludes _ _ Hperm)).
Defined.

End scan_order_examples.

(** ** The validator *)
Section validator_facts.
Implicit Types (includesList excludesList : list string) (itm : string).

(** The loop over the excludes appends one error for each pattern that the
    includes hold. *)
Lemma overlap_loop (inc : gset string) (errs : list errors.error) (l : list string) :
  foldl (λ errs itm, if sets.Has inc itm then errs ++ [errOverlap itm] else errs) errs l
  = errs ++ (errOverlap <$> filter (λ itm, itm ∈ inc) l).
Proof.
  revert errs. induction l as [|itm l IH]; intros errs; simpl.
  - by rewrite app_nil_r.
  - rewrite IH, filter_cons. unfold sets.Has.
    case_bool_decide; case_decide; try done.
    by rewrite <-app_assoc.
Qed.

Lemma StronglySorted_filter_le (P : string → Prop) `{∀ x, Decision (P x)}
    (l : list string) :
  StronglySorted String.le l → StronglySorted String.le (filter P l).
Proof.
  induction 1 as [|x l Hl IH Hx]; [constructor|].
  rewrite filter_cons. case_decide; [|done].
  constructor; [done|]. rewrite Forall_forall in Hx |- *.
  intros y [_ Hy]%list_elem_of_filter. by apply Hx.
Qed.

(** The patterns the two sets share, as the loop meets them. *)
Lemma overlap_List (inc exc : gset string) :
  filter (λ itm, itm ∈ inc) (sets.List exc) = sets.List (inc ∩ exc).
Proof.
  symmetry. apply List_unique.
  - apply StronglySorted_Sorted, StronglySorted_filter_le, StronglySorted_List.
  - apply NoDup_filter, NoDup_List.
  - intros x. rewrite list_elem_of_filter, elem_of_List. set_solver.
Qed.

Lemma ValidateIncludesExcludes_eq includesList excludesList :
  ValidateIncludesExcludes includesList excludesList
  = (if wildcard_with_others includesList then [errWildcardIncludes] else [])
    ++ (if wildcard_excluded excludesList then [errWildcardExcludes] else [])
    ++ (errOverlap <$> sets.List (overlap includesList excludesList)).
Proof.
  unfold ValidateIncludesExcludes, wildcard_with_others, wildcard_excluded, overlap.
  rewrite overlap_loop, overlap_List.
  by destruct (_ && _), (sets.Has (sets.NewString excludesList) "*").
Qed.

Lemma wildcard_with_others_true includesList :
  wildcard_with_others includesList = true ↔
  "*" ∈ includesList ∧ ∃ other, other ∈ includesList ∧ other ≠ "*".
Proof.
  unfold wildcard_with_others, sets.Len.
  rewrite andb_true_iff, Nat.ltb_lt, Has_true, elem_of_NewString.
  split.
  - intros [Hsize Hstar]. split; [done|].
    destruct (set_choose_or_empty (sets.NewString includesList ∖ {[ "*" ]}))
      as [[other Hother]|Hempty].
    + exists other. rewrite <-elem_of_NewString. set_solver.
    + assert (sets.NewString includesList = {[ "*" ]}) as Heq.
      { apply elem_of_NewString in Hstar. apply set_eq. intros x.
        rewrite elem_of_singleton. split; [|by intros ->].
        intros Hx. destruct (decide (x = "*")) as [|Hne]; [done|].
        exfalso. apply (not_elem_of_empty (C:=gset string) x), Hempty.
        by apply elem_of_difference, conj, not_elem_of_singleton. }
      rewrite Heq, size_singleton in Hsize. lia.
  - intros [Hstar (other & Hother & Hne)]. split; [|done].
    assert ({[ other ]} ∪ {[ "*" ]} ⊆ sets.NewString includesList) as Hsub.
    { apply elem_of_NewString in Hstar, Hother. set_solver. }
    apply subseteq_size in Hsub.
    rewrite size_union, !size_singleton in Hsub by set_solver. lia.
Qed.

Lemma wildcard_excluded_true excludesList :
  wildcard_excluded excludesList = true ↔ "*" ∈ excludesList.
Proof. unfold wildcard_excluded. by rewrite Has_true, elem_of_NewString. Qed.

Lemma elem_of_overlap includesList excludesList itm :
  itm ∈ overlap includesList excludesList ↔ itm ∈ includesList ∧ itm ∈ excludesList.
Proof. unfold overlap. by rewrite elem_of_intersection, !elem_of_NewString. Qed.

(** C4: the violations are, in this order, one for a wildcard among
    several distinct includes, one for a wildcard among the excludes, and
    one for each distinct item the two lists share; the list is empty
    exactly when no rule is violated, and the three sample inputs give one
    violation each. *)
Theorem ValidateIncludesExcludes_violations includesList excludesList :
  ValidateIncludesExcludes includesList excludesList
  = (if wildcard_with_others includesList then [errWildcardIncludes] else [])
    ++ (if wildcard_excluded excludesList then [errWildcardExcludes] else [])
    ++ (errOverlap <$> sets.List (overlap includesList excludesList))
  ∧ length (ValidateIncludesExcludes includesList excludesList)
    = (if wildcard_with_others includesList then 1 else 0)
      + (if wildcard_excluded excludesList then 1 else 0)
      + size (overlap includesList excludesList)
  ∧ (wildcard_with_others includesList = true ↔
     "*" ∈ includesList ∧ ∃ other, other ∈ includesList ∧ other ≠ "*")
  ∧ (wildcard_excluded excludesList = true ↔ "*" ∈ excludesList)
  ∧ (∀ itm, itm ∈ overlap includesList excludesList ↔
            itm ∈ includesList ∧ itm ∈ excludesList)
  ∧ (ValidateIncludesExcludes includesList excludesList = [] ↔
     ¬ ("*" ∈ includesList ∧ ∃ other, other ∈ includesList ∧ other ≠ "*")
     ∧ ¬ ("*" ∈ excludesList)
     ∧ ∀ itm, ¬ (itm ∈ includesList ∧ itm ∈ excludesList))
  ∧ ValidateIncludesExcludes ["*"; "a"] [] = [errWildcardIncludes]
  ∧ ValidateIncludesExcludes ["a"] ["*"] = [errWildcardExcludes]
  ∧ ValidateIncludesExcludes ["a"] ["a"] = [errOverlap "a"].
Proof.
  split; [apply ValidateIncludesExcludes_eq|].
  split.
  { rewrite ValidateIncludesExcludes_eq, !length_app, length_fmap, length_List.
    unfold sets.Len. by destruct (wildcard_with_others _), (wildcard_excluded _). }
  split; [apply wildcard_with_others_true|].
  split; [apply wildcard_excluded_true|].
  split; [apply elem_of_overlap|].
  split; [|by vm_compute].
  rewrite ValidateIncludesExcludes_eq, !app_nil.
  rewrite <-wildcard_with_others_true, <-wildcard_excluded_true.
  assert ((errOverlap <$> sets.List (overlap includesList excludesList)) = []
          ↔ ∀ itm, ¬ (itm ∈ includesList ∧ itm ∈ excludesList)) as ->.
  { split.
    - intros Hnil%fmap_nil_inv itm Hitm%elem_of_overlap%elem_of_List.
      rewrite Hnil in Hitm. by apply elem_of_nil in Hitm.
    - intros Hnone.
      assert (sets.List (overlap includesList excludesList) = []) as ->; [|done].
      apply elem_of_nil_inv. intros itm Hitm%elem_of_List.
      by apply (Hnone itm), elem_of_overlap. }
  destruct (wildcard_with_others _), (wildcard_excluded _); naive_solver.
Qed.

End validator_facts.

(** ** The generator *)
Section generator_facts.
Implicit Types (mapFunc : string → string) (res : IncludesExcludes).
Implicit Types (raw rawIncludes rawExcludes : list string) (item k : string).

Lemma mapped_from_nil mapFunc k : ¬ mapped_from mapFunc [] k.
Proof. intros (item & Hitem & _). by apply elem_of_nil in Hitem. Qed.

Lemma mapped_from_cons mapFunc item raw k :
  mapped_from mapFunc (item :: raw) k ↔
  (item ≠ "*" ∧ mapFunc item = k ∧ k ≠ "") ∨ mapped_from mapFunc raw k.
Proof.
  unfold mapped_from. split.
  - intros (item' & [->|Hin]%elem_of_cons & ?); [by left|right; by exists item'].
  - intros [?|(item' & ? & ?)]; [exists item|exists item']; set_solver.
Qed.

Lemma includes_loop mapFunc raw res :
  excludes (foldl (include_body mapFunc) res raw) = excludes res
  ∧ ∀ k, k ∈ String_ (includes (foldl (include_body mapFunc) res raw)) ↔
         k ∈ String_ (includes res) ∨ (k = "*" ∧ "*" ∈ raw) ∨ mapped_from mapFunc raw k.
Proof.
  revert res. induction raw as [|item raw IH]; intros res; cbn [foldl].
  - split; [done|]. intros k. split; [auto|].
    intros [?|[[_ []%elem_of_nil]|[]%mapped_from_nil]]. done.
  - destruct (String.eqb_spec item "*") as [->|Hitem];
      [|destruct (String.eqb_spec (mapFunc item) "") as [Hkey|Hkey]];
      cbv beta iota.
    + destruct (IH (Includes res ["*"])) as [Hex Hin].
      split; [by rewrite Hex|]. intros k. rewrite Hin, mapped_from_cons.
      cbn [Includes includes String_]. rewrite elem_of_Insert. set_solver.
    + destruct (IH res) as [Hex Hin].
      split; [done|]. intros k. rewrite Hin, mapped_from_cons. set_solver.
    + destruct (IH (Includes res [mapFunc item])) as [Hex Hin].
      split; [by rewrite Hex|]. intros k. rewrite Hin, mapped_from_cons.
      cbn [Includes includes String_]. rewrite elem_of_Insert. set_solver.
Qed.

Lemma excludes_loop mapFunc raw res :
  includes (foldl (exclude_body mapFunc) res raw) = includes res
  ∧ ∀ k, k ∈ String_ (excludes (foldl (exclude_body mapFunc) res raw)) ↔
         k ∈ String_ (excludes res) ∨ mapped_from mapFunc raw k.
Proof.
  revert res. induction raw as [|item raw IH]; intros res; cbn [foldl].
  - split; [done|]. intros k. split; [auto|].
    intros [?|[]%mapped_from_nil]. done.
  - destruct (String.eqb_spec item "*") as [->|Hitem];
      [|destruct (String.eqb_spec (mapFunc item) "") as [Hkey|Hkey]];
      cbv beta iota.
    + destruct (IH res) as [Hinc Hex].
      split; [done|]. intros k. rewrite Hex, mapped_from_cons. set_solver.
    + destruct (IH res) as [Hinc Hex].
      split; [done|]. intros k. rewrite Hex, mapped_from_cons. set_solver.
    + destruct (IH (Excludes res [mapFunc item])) as [Hinc Hex].
      split; [by rewrite Hinc|]. intros k. rewrite Hex, mapped_from_cons.
      cbn [Excludes excludes String_]. rewrite elem_of_Insert. set_solver.
Qed.

Lemma elem_of_Generate_includes mapFunc rawIncludes rawExcludes k :
  k ∈ String_ (includes (GenerateIncludesExcludes rawIncludes rawExcludes mapFunc)) ↔
  (k = "*" ∧ "*" ∈ rawIncludes) ∨ mapped_from mapFunc rawIncludes k.
Proof.
  unfold GenerateIncludesExcludes. cbv zeta.
  destruct (excludes_loop mapFunc rawExcludes
              (foldl (include_body mapFunc) NewIncludesExcludes rawIncludes))
    as [Hsame _].
  destruct (includes_loop mapFunc rawIncludes NewIncludesExcludes) as [_ Hin].
  cbv zeta in Hsame, Hin. rewrite Hsame, Hin. set_solver.
Qed.

Lemma elem_of_Generate_excludes mapFunc rawIncludes rawExcludes k :
  k ∈ String_ (excludes (GenerateIncludesExcludes rawIncludes rawExcludes mapFunc)) ↔
  mapped_from mapFunc rawExcludes k.
Proof.
  unfold GenerateIncludesExcludes. cbv zeta.
  destruct (excludes_loop mapFunc rawExcludes
              (foldl (include_body mapFunc) NewIncludesExcludes rawIncludes))
    as [_ Hex].
  destruct (includes_loop mapFunc rawIncludes NewIncludesExcludes) as [Hsame _].
  cbv zeta in Hsame, Hex. rewrite Hex, Hsame. set_solver.
Qed.

(** C5: the generated includes are the wildcard, when the raw includes
    hold it, and the non-empty images of the other raw includes; the
    generated excludes are the non-empty images of the raw excludes other
    than the wildcard.  The identity keeps "*" and "pods" as includes and
    "cm" as exclude, and an entry mapped to the empty string is left
    out. *)
Theorem GenerateIncludesExcludes_spec rawIncludes rawExcludes mapFunc :
  (∀ k, k ∈ String_ (includes (GenerateIncludesExcludes rawIncludes rawExcludes mapFunc)) ↔
        (k = "*" ∧ "*" ∈ rawIncludes)
        ∨ ∃ item, item ∈ rawIncludes ∧ item ≠ "*" ∧ mapFunc item = k ∧ k ≠ "")
  ∧ (∀ k, k ∈ String_ (excludes (GenerateIncludesExcludes rawIncludes rawExcludes mapFunc)) ↔
          ∃ item, item ∈ rawExcludes ∧ item ≠ "*" ∧ mapFunc item = k ∧ k ≠ "")
  ∧ (String_ (includes (GenerateIncludesExcludes ["*"; "pods"] ["cm"] id)) = {[ "*"; "pods" ]}
     ∧ String_ (excludes (GenerateIncludesExcludes ["*"; "pods"] ["cm"] id)) = {[ "cm" ]}
     ∧ GetIncludes (GenerateIncludesExcludes ["*"; "pods"] ["cm"] id) = ["*"; "pods"]
     ∧ GetExcludes (GenerateIncludesExcludes ["*"; "pods"] ["cm"] id) = ["cm"])
  ∧ String_ (includes (GenerateIncludesExcludes ["x"] [] mapFunc))
    = (if String.eqb (mapFunc "x") "" then ∅ else {[ mapFunc "x" ]}).
Proof.
  split; [intros k; apply elem_of_Generate_includes|].
  split; [intros k; apply elem_of_Generate_excludes|].
  split.
  - split; [|split; [|split]]; [| |by vm_compute..].
    + apply set_eq. intros k. rewrite elem_of_Generate_includes.
      unfold mapped_from, id. set_solver.
    + apply set_eq. intros k. rewrite elem_of_Generate_excludes.
      unfold mapped_from, id. set_solver.
  - apply set_eq. intros k. rewrite elem_of_Generate_includes.
    unfold mapped_from.
    destruct (String.eqb_spec (mapFunc "x") "") as [Hx|Hx]; set_solver.
Qed.

(** C10: the second loop drops the raw entry "*" but does not look at the
    mapped key, so a raw exclude other than "*" that is mapped to "*" puts
    the wildcard among the generated excludes; a mapping of "x" to "*"
    does so for the raw excludes ["x"], which do not hold "*". *)
Theorem GenerateIncludesExcludes_excludes_wildcard :
  (∀ rawIncludes rawExcludes mapFunc item,
     item ∈ rawExcludes → item ≠ "*" → mapFunc item = "*" →
     "*" ∈ String_ (excludes (GenerateIncludesExcludes rawIncludes rawExcludes mapFunc)))
  ∧ (∀ rawIncludes mapFunc,
       String_ (excludes (GenerateIncludesExcludes rawIncludes ["*"] mapFunc)) = ∅)
  ∧ (¬ ("*" ∈ ["x"])
     ∧ x_to_wildcard "x" = "*"
     ∧ "*" ∈ String_ (excludes (GenerateIncludesExcludes [] ["x"] x_to_wildcard))
     ∧ GetExcludes (GenerateIncludesExcludes [] ["x"] x_to_wildcard) = ["*"]).
Proof.
  split; [|split].
  - intros rawIncludes rawExcludes mapFunc item Hitem Hne Hmap.
    apply elem_of_Generate_excludes. by exists item.
  - intros rawIncludes mapFunc. apply set_eq. intros k.
    rewrite elem_of_Generate_excludes. unfold mapped_from. set_solver.
  - split; [set_solver|]. split; [done|]. split; [|by vm_compute].
    apply elem_of_Generate_excludes. exists "x". set_solver.
Qed.

End generator_facts.

Section generator_examples.

(** C10 at the raw excludes ["x"; "y"], with "x" mapped to "*". *)
Lemma GenerateIncludesExcludes_excludes_wildcard_witness :
  "x" ∈ ["x"; "y"] ∧ "x" ≠ "*" ∧ x_to_wildcard "x" = "*"
  ∧ "*" ∈ String_ (excludes (GenerateIncludesExcludes ["pods"] ["x"; "y"] x_to_wildcard)).
Proof.
  assert ("x" ∈ ["x"; "y"]) as Hin by set_solver.
  assert ("x" ≠ "*") as Hne by done.
  split; [exact Hin|]. split; [exact Hne|]. split; [reflexivity|].
  exact (proj1 GenerateIncludesExcludes_excludes_wildcard
           ["pods"] ["x"; "y"] x_to_wildcard "x" Hin Hne eq_refl).
Defined.

End generator_examples.

(** ** Resolving resources *)
Section resource_facts.
Context `{helper : discovery.Helper}.
Implicit Types (rawIncludes rawExcludes : list string) (item : string).

Lemma resolve_fallback item : resolution_fails item → resolve item = item.
Proof. intros [err Herr]. unfold resolve. by rewrite Herr. Qed.

(** X19: an entry other than the empty string that the resolver fails on
    is kept as it is: among the includes when it is a raw include, and
    among the excludes when it is a raw exclude other than the wildcard. *)
Theorem GetResourceIncludesExcludes_fallback rawIncludes rawExcludes item :
  resolution_fails item →
  item ≠ "" →
  (item ∈ rawIncludes →
   item ∈ String_ (includes (GetResourceIncludesExcludes rawIncludes rawExcludes)))
  ∧ (item ∈ rawExcludes → item ≠ "*" →
     item ∈ String_ (excludes (GetResourceIncludesExcludes rawIncludes rawExcludes))).
Proof.
  intros Hfails%resolve_fallback Hne. unfold GetResourceIncludesExcludes. split.
  - intros Hin. apply elem_of_Generate_includes.
    destruct (decide (item = "*")) as [->|Hstar]; [by left|].
    right. by exists item.
  - intros Hin Hstar. apply elem_of_Generate_excludes. by exists item.
Qed.

(** The closure hands an empty entry back as it is, and the generator
    leaves the empty key out. *)
Lemma empty_entry_dropped rawExcludes :
  resolution_fails "" →
  String_ (includes (GetResourceIncludesExcludes [""] rawExcludes)) = ∅.
Proof.
  intros Hfails%resolve_fallback. apply set_eq. intros k.
  unfold GetResourceIncludesExcludes. rewrite elem_of_Generate_includes.
  unfold mapped_from. set_solver.
Qed.

(** C6, the code at the failing input: when the resolver fails on the empty
    entry, the raw includes [""] leave the generated includes empty; the
    entry is not kept, and with no excludes the filter includes everything,
    which is what the fallback is there to prevent. *)
Theorem GetResourceIncludesExcludes_empty_entry rawExcludes :
  resolution_fails "" →
  ¬ ("" ∈ String_ (includes (GetResourceIncludesExcludes [""] rawExcludes)))
  ∧ GetIncludes (GetResourceIncludesExcludes [""] rawExcludes) = []
  ∧ IncludeEverything (GetResourceIncludesExcludes [""] []) = true.
Proof.
  intros Hfails.
  pose proof (empty_entry_dropped rawExcludes Hfails) as Hin.
  pose proof (empty_entry_dropped [] Hfails) as Hin0.
  split; [rewrite Hin; set_solver|]. split.
  - unfold GetIncludes. rewrite Hin. apply nil_length_inv.
    rewrite length_List. by apply Len_0.
  - assert (String_ (excludes (GetResourceIncludesExcludes [""] [])) = ∅) as Hex.
    { apply set_eq. intros k. unfold GetResourceIncludesExcludes.
      rewrite elem_of_Generate_excludes. split; [|set_solver].
      by intros []%mapped_from_nil. }
    unfold IncludeEverything.
    apply Len_0 in Hin0, Hex. by rewrite Hin0, Hex.
Qed.

End resource_facts.

Section resource_examples.
#[local] Existing Instance small_cluster.

Lemma widgets_unresolved : resolution_fails "widgets".
Proof. by eexists. Qed.

Lemma empty_unresolved : resolution_fails "".
Proof. by eexists. Qed.

(** What the code returns for the single raw include "". *)
Lemma GetIncludes_empty_entry : GetIncludes (GetResourceIncludesExcludes [""] []) = [].
Proof. reflexivity. Qed.

(** The fallback as the specification words it fails at the raw includes
    [""]: the resolver fails on the empty entry, and the generated includes
    do not hold it. *)
Lemma resolver_fallback_counterexample : ¬ resolver_fallback_as_stated [""] [].
Proof.
  intros Hkept. destruct (Hkept "" empty_unresolved) as [Hin _].
  assert ("" ∈ (∅ : gset string)) as Hempty; [|set_solver].
  rewrite <-(empty_entry_dropped [] empty_unresolved). apply Hin. set_solver.
Qed.

(** C6 at the sample cluster: the resolver fails on "", and the filter
    generated from the raw includes [""] includes everything. *)
Lemma GetResourceIncludesExcludes_empty_entry_witness :
  resolution_fails ""
  ∧ ¬ ("" ∈ String_ (includes (GetResourceIncludesExcludes [""] [])))
  ∧ GetIncludes (GetResourceIncludesExcludes [""] []) = []
  ∧ IncludeEverything (GetResourceIncludesExcludes [""] []) = true.
Proof.
  split; [exact empty_unresolved|].
  exact (GetResourceIncludesExcludes_empty_entry [] empty_unresolved).
Defined.

(** X19, witness: "widgets" does not resolve and stays among the includes,
    next to the resolved "deployments.apps". *)
Lemma GetResourceIncludesExcludes_fallback_witness :
  resolution_fails "widgets" ∧ "widgets" ≠ ""
  ∧ "widgets" ∈ String_ (includes (GetResourceIncludesExcludes
                                     ["deployments"; "widgets"] ["widgets"]))
  ∧ "widgets" ∈ String_ (excludes (GetResourceIncludesExcludes
                                     ["deployments"; "widgets"] ["widgets"]))
  ∧ GetIncludes (GetResourceIncludesExcludes ["deployments"; "widgets"] ["widgets"])
    = ["deployments.apps"; "widgets"].
Proof.
  assert ("widgets" ≠ "") as Hne by done.
  assert ("widgets" ≠ "*") as Hstar by done.
  assert ("widgets" ∈ ["deployments"; "widgets"]) as Hin by set_solver.
  assert ("widgets" ∈ ["widgets"]) as Hex by set_solver.
  split; [exact widgets_unresolved|]. split; [exact Hne|].
  split; [|split; [|reflexivity]].
  - exact (proj1 (GetResourceIncludesExcludes_fallback
                    ["deployments"; "widgets"] ["widgets"] "widgets"
                    widgets_unresolved Hne) Hin).
  - exact (proj2 (GetResourceIncludesExcludes_fallback
                    ["deployments"; "widgets"] ["widgets"] "widgets"
                    widgets_unresolved Hne) Hex Hstar).
Defined.

End resource_examples.


(** * Further properties of the filter *)
Section filter_more.
Context `{G : Glob}.
Implicit Types (ie : IncludesExcludes) (s : gset string) (l : list string).
Implicit Types (p q c : string).

(** Well-formed additions leave every pattern the scan reached within its
    reach. *)
Lemma matches_reached_Insert s l c :
  (∀ q, q ∈ l → ¬ malformed q) →
  matches_reached s c → matches_reached (sets.Insert s l) c.
Proof.
  intros Hl (p & Hp & Hmatch & Hreach). exists p.
  split; [apply elem_of_Insert; auto|]. split; [done|].
  intros q [Hq|Hq]%elem_of_Insert Hbefore; auto.
Qed.

Lemma IncludeEverything_all ie :
  IncludeEverything ie = true →
  String_ (excludes ie) = ∅
  ∧ (String_ (includes ie) = ∅ ∨ String_ (includes ie) = {[ "*" ]}).
Proof.
  unfold IncludeEverything.
  rewrite andb_true_iff, orb_true_iff, andb_true_iff, !Nat.eqb_eq, Has_true.
  by rewrite !Len_0, Len_1_Has.
Qed.

(** X1: a filter for which [IncludeEverything] holds accepts every
    candidate, whatever the glob library. *)
Theorem IncludeEverything_ShouldInclude ie c :
  IncludeEverything ie = true → ShouldInclude ie c = true.
Proof.
  intros [Hex Hin]%IncludeEverything_all. apply ShouldInclude_true. split.
  - apply match_false. intros (p & Hp & _). rewrite Hex in Hp. set_solver.
  - destruct Hin as [->| ->]; [by left|right; left; set_solver].
Qed.

(** X2: adding exclude patterns that compile never lets in a candidate that
    the filter rejected. *)
Theorem Excludes_keeps_rejected ie l c :
  (∀ q, q ∈ l → ¬ malformed q) →
  ShouldInclude ie c = false →
  ShouldInclude (Excludes ie l) c = false.
Proof.
  intros Hl Hrejected. apply not_true_is_false.
  intros [Hno Hin]%ShouldInclude_true.
  apply not_true_iff_false in Hrejected. apply Hrejected, ShouldInclude_true.
  split; [|exact Hin].
  apply match_false. intros Hreach. apply match_false in Hno. apply Hno.
  by apply matches_reached_Insert.
Qed.

(** X3: adding include patterns that compile to a filter that already has
    include patterns never shuts out a candidate that the filter
    accepted. *)
Theorem Includes_keeps_accepted ie l c :
  (∀ q, q ∈ l → ¬ malformed q) →
  String_ (includes ie) ≠ ∅ →
  ShouldInclude ie c = true →
  ShouldInclude (Includes ie l) c = true.
Proof.
  intros Hl Hnonempty [Hno Hin]%ShouldInclude_true.
  apply ShouldInclude_true. split; [exact Hno|].
  cbn [Includes includes String_].
  destruct Hin as [Hempty|[Hstar|Hreach]]; [done| |].
  - right; left. apply elem_of_Insert. auto.
  - right; right. apply match_true. cbn [String_].
    by apply matches_reached_Insert, match_true.
Qed.

End filter_more.

Section filter_more_examples.
#[local] Existing Instance gobwas.lib.

(** Case analysis on a pattern of one of the sample filters. *)
Ltac sample_member H :=
  unfold ie_pods_apps in H;
  cbn [Includes Excludes includes excludes String_
       NewIncludesExcludes newGlobStringSet] in H;
  rewrite ?elem_of_Insert, ?elem_of_NewString in H;
  set_unfold in H; destruct_or?; try done; subst.

Lemma pods_apps_excludes_compile q :
  q ∈ String_ (excludes ie_pods_apps) → ¬ malformed q.
Proof. intros Hq. sample_member Hq. discriminate. Qed.

Lemma pods_apps_includes_compile q :
  q ∈ String_ (includes ie_pods_apps) → ¬ malformed q.
Proof. intros Hq. sample_member Hq; discriminate. Qed.

(** X1 at the filter that includes "*" alone. *)
Lemma IncludeEverything_ShouldInclude_witness :
  IncludeEverything (Includes NewIncludesExcludes ["*"]) = true
  ∧ ShouldInclude (Includes NewIncludesExcludes ["*"]) "pods" = true.
Proof.
  split; [reflexivity|].
  exact (IncludeEverything_ShouldInclude (Includes NewIncludesExcludes ["*"]) "pods" eq_refl).
Defined.

(** X2: "secrets" is rejected, and stays rejected when "pods" is excluded
    as well. *)
Lemma Excludes_keeps_rejected_witness :
  (∀ q, q ∈ ["pods"] → ¬ malformed q)
  ∧ ShouldInclude ie_pods_apps "secrets" = false
  ∧ ShouldInclude (Excludes ie_pods_apps ["pods"]) "secrets" = false.
Proof.
  assert (∀ q, q ∈ ["pods"] → ¬ malformed q) as Hl.
  { intros q Hq. set_unfold in Hq. destruct_or?; try done; subst. discriminate. }
  split; [exact Hl|]. split; [reflexivity|].
  exact (Excludes_keeps_rejected ie_pods_apps ["pods"] "secrets" Hl eq_refl).
Defined.

(** X3: "pods" is accepted, and stays accepted when "secrets" is included
    as well. *)
Lemma Includes_keeps_accepted_witness :
  (∀ q, q ∈ ["secrets"] → ¬ malformed q)
  ∧ String_ (includes ie_pods_apps) ≠ ∅
  ∧ ShouldInclude ie_pods_apps "pods" = true
  ∧ ShouldInclude (Includes ie_pods_apps ["secrets"]) "pods" = true.
Proof.
  assert (∀ q, q ∈ ["secrets"] → ¬ malformed q) as Hl.
  { intros q Hq. set_unfold in Hq. destruct_or?; try done; subst. discriminate. }
  assert (String_ (includes ie_pods_apps) ≠ ∅) as Hnonempty.
  { intros Hempty. apply (not_elem_of_empty (C := gset string) "pods").
    rewrite <-Hempty. apply elem_of_Insert. set_solver. }
  split; [exact Hl|]. split; [exact Hnonempty|]. split; [reflexivity|].
  exact (Includes_keeps_accepted ie_pods_apps ["secrets"] "pods" Hl Hnonempty eq_refl).
Defined.

(** X4 at the sample filter and the candidate "deployments.apps". *)
Lemma exclude_wins_well_formed_witness :
  (∀ q, q ∈ String_ (excludes ie_pods_apps) → ¬ malformed q)
  ∧ (∀ q, q ∈ String_ (includes ie_pods_apps) → ¬ malformed q)
  ∧ exclude_wins_as_stated ie_pods_apps "deployments.apps".
Proof.
  split; [exact pods_apps_excludes_compile|].
  split; [exact pods_apps_includes_compile|].
  exact (exclude_wins_well_formed ie_pods_apps "deployments.apps"
           pods_apps_excludes_compile pods_apps_includes_compile).
Defined.

End filter_more_examples.

(** * Building a filter step by step *)
Section building_facts.
Implicit Types (ie : IncludesExcludes) (s : gset string) (l : list string).

Lemma Insert_app s l1 l2 :
  sets.Insert s (l1 ++ l2) = sets.Insert (sets.Insert s l1) l2.
Proof. unfold sets.Insert. apply foldl_app. Qed.

Lemma size_union_bound (X Y : gset string) : size (X ∪ Y) ≤ size X + size Y.
Proof.
  rewrite size_union_alt. apply Nat.add_le_mono_l, subseteq_size. set_solver.
Qed.

Lemma size_list_to_set_le l : size (list_to_set l : gset string) ≤ length l.
Proof.
  induction l as [|x l IH]; cbn [list_to_set length].
  - rewrite size_empty. lia.
  - etrans; [apply size_union_bound|]. rewrite size_singleton. lia.
Qed.

Lemma Len_Insert_bounds s l :
  sets.Len s ≤ sets.Len (sets.Insert s l) ≤ sets.Len s + length l.
Proof.
  unfold sets.Len. rewrite Insert_union. split.
  - apply subseteq_size. set_solver.
  - etrans; [apply size_union_bound|]. pose proof (size_list_to_set_le l). lia.
Qed.

(** X5: [Includes] adds exactly the given items to the listing of includes
    and leaves the excludes alone, [Excludes] does the same on the other
    side; two additions in a row amount to one addition of both lists, and
    additions to the two sides can be swapped. *)
Theorem Includes_Excludes_compose ie l1 l2 :
  ((∀ x, x ∈ GetIncludes (Includes ie l1) ↔ x ∈ l1 ∨ x ∈ GetIncludes ie)
   ∧ GetExcludes (Includes ie l1) = GetExcludes ie)
  ∧ ((∀ x, x ∈ GetExcludes (Excludes ie l1) ↔ x ∈ l1 ∨ x ∈ GetExcludes ie)
     ∧ GetIncludes (Excludes ie l1) = GetIncludes ie)
  ∧ Includes (Includes ie l1) l2 = Includes ie (l1 ++ l2)
  ∧ Excludes (Excludes ie l1) l2 = Excludes ie (l1 ++ l2)
  ∧ Excludes (Includes ie l1) l2 = Includes (Excludes ie l2) l1.
Proof.
  split; [|split; [|split; [|split]]].
  - split; [|done]. intros x. unfold GetIncludes, Includes.
    cbn [includes String_]. by rewrite !elem_of_List, elem_of_Insert.
  - split; [|done]. intros x. unfold GetExcludes, Excludes.
    cbn [excludes String_]. by rewrite !elem_of_List, elem_of_Insert.
  - unfold Includes. cbn [includes excludes String_]. by rewrite Insert_app.
  - unfold Excludes. cbn [includes excludes String_]. by rewrite Insert_app.
  - done.
Qed.

(** X6: an addition never shortens a listing, and lengthens it by at most
    the number of items given. *)
Theorem Includes_Excludes_length ie l :
  (length (GetIncludes ie) ≤ length (GetIncludes (Includes ie l))
   ∧ length (GetIncludes (Includes ie l)) ≤ length (GetIncludes ie) + length l)
  ∧ (length (GetExcludes ie) ≤ length (GetExcludes (Excludes ie l))
     ∧ length (GetExcludes (Excludes ie l)) ≤ length (GetExcludes ie) + length l).
Proof.
  unfold GetIncludes, GetExcludes, Includes, Excludes.
  cbn [includes excludes String_]. rewrite !length_List.
  split; apply Len_Insert_bounds.
Qed.

End building_facts.

(** * Rendering *)
Section rendering_facts.
Implicit Types (ie : IncludesExcludes) (s : gset string) (l : list string).

Lemma Join_cons_cons x y l :
  strings.Join (x :: y :: l) ", " = x +:+ ", " +:+ strings.Join (y :: l) ", ".
Proof. reflexivity. Qed.

(** Two joined elements spell neither placeholder: there is a comma. *)
Lemma joined_not_star (x r : string) : x +:+ ", " +:+ r ≠ "*".
Proof.
  intros H.
  repeat (destruct x as [|? x]; simpl in H; try discriminate; injection H as _ H).
Qed.

Lemma joined_not_none (x r : string) : x +:+ ", " +:+ r ≠ "<none>".
Proof.
  intros H.
  repeat (destruct x as [|? x]; simpl in H; try discriminate; injection H as _ H).
Qed.

Lemma asString_star l : asString l "*" = "*" ↔ l = [] ∨ l = ["*"].
Proof.
  destruct l as [|x [|y l]]; unfold asString; cbn [length Nat.eqb].
  - naive_solver.
  - cbn. naive_solver.
  - rewrite Join_cons_cons. split; [by intros ?%joined_not_star|naive_solver].
Qed.

Lemma asString_none l : asString l "<none>" = "<none>" ↔ l = [] ∨ l = ["<none>"].
Proof.
  destruct l as [|x [|y l]]; unfold asString; cbn [length Nat.eqb].
  - naive_solver.
  - cbn. naive_solver.
  - rewrite Join_cons_cons. split; [by intros ?%joined_not_none|naive_solver].
Qed.

Lemma List_nil s : sets.List s = [] ↔ s = ∅.
Proof.
  rewrite <-Len_0, <-length_List. split; [by intros ->|].
  apply nil_length_inv.
Qed.

Lemma List_singleton s x : sets.List s = [x] ↔ s = {[ x ]}.
Proof.
  split.
  - intros Hl. apply set_eq. intros y. rewrite <-elem_of_List, Hl. set_solver.
  - intros ->. apply List_unique.
    + repeat constructor.
    + apply NoDup_singleton.
    + intros y. set_solver.
Qed.

(** X7: the includes are rendered as "*" exactly when the include set is
    empty or holds the literal "*" alone, so the rendering does not tell
    the two apart. *)
Theorem IncludesString_star ie :
  IncludesString ie = "*" ↔
  String_ (includes ie) = ∅ ∨ String_ (includes ie) = {[ "*" ]}.
Proof.
  unfold IncludesString, GetIncludes.
  by rewrite asString_star, List_nil, List_singleton.
Qed.

(** X8: the excludes are rendered as "<none>" exactly when the exclude set
    is empty or holds the single pattern "<none>". *)
Theorem ExcludesString_none ie :
  ExcludesString ie = "<none>" ↔
  String_ (excludes ie) = ∅ ∨ String_ (excludes ie) = {[ "<none>" ]}.
Proof.
  unfold ExcludesString, GetExcludes.
  by rewrite asString_none, List_nil, List_singleton.
Qed.

End rendering_facts.

Section rendering_everything.
Implicit Types (ie : IncludesExcludes).

(** X9: a filter for which [IncludeEverything] holds is rendered as "*"
    and "<none>". *)
Theorem IncludeEverything_rendering ie :
  IncludeEverything ie = true →
  IncludesString ie = "*" ∧ ExcludesString ie = "<none>".
Proof.
  intros [Hex Hin]%IncludeEverything_all.
  unfold IncludesString, ExcludesString, GetIncludes, GetExcludes. split.
  - apply asString_star. by rewrite List_nil, List_singleton.
  - apply asString_none. left. by apply List_nil.
Qed.

Lemma IncludeEverything_rendering_witness :
  IncludeEverything (Includes NewIncludesExcludes ["*"]) = true
  ∧ IncludesString (Includes NewIncludesExcludes ["*"]) = "*"
  ∧ ExcludesString (Includes NewIncludesExcludes ["*"]) = "<none>".
Proof.
  split; [reflexivity|].
  exact (IncludeEverything_rendering (Includes NewIncludesExcludes ["*"]) eq_refl).
Defined.

End rendering_everything.

(** * Further properties of the validators *)
Section validator_more.
Implicit Types (l e : list string).

Lemma NewString_ext l l' :
  (∀ x, x ∈ l ↔ x ∈ l') → sets.NewString l = sets.NewString l'.
Proof. intros Hl. apply set_eq. intros x. by rewrite !elem_of_NewString. Qed.

(** X10: the violations depend on the two lists only through the sets of
    their entries: order and repetitions play no part. *)
Theorem ValidateIncludesExcludes_sets l l' e e' :
  (∀ x, x ∈ l ↔ x ∈ l') →
  (∀ x, x ∈ e ↔ x ∈ e') →
  ValidateIncludesExcludes l e = ValidateIncludesExcludes l' e'.
Proof.
  intros Hl%NewString_ext He%NewString_ext.
  unfold ValidateIncludesExcludes. by rewrite Hl, He.
Qed.

Lemma ValidateIncludesExcludes_sets_witness :
  (∀ x, x ∈ ["a"; "*"; "a"] ↔ x ∈ ["*"; "a"])
  ∧ (∀ x, x ∈ ["b"; "a"] ↔ x ∈ ["a"; "b"; "b"])
  ∧ ValidateIncludesExcludes ["a"; "*"; "a"] ["b"; "a"]
    = ValidateIncludesExcludes ["*"; "a"] ["a"; "b"; "b"].
Proof.
  assert (∀ x, x ∈ ["a"; "*"; "a"] ↔ x ∈ ["*"; "a"]) as Hl by set_solver.
  assert (∀ x, x ∈ ["b"; "a"] ↔ x ∈ ["a"; "b"; "b"]) as He by set_solver.
  split; [exact Hl|]. split; [exact He|].
  exact (ValidateIncludesExcludes_sets _ _ _ _ Hl He).
Defined.

End validator_more.

(** * Validating namespaces *)
Section namespace_facts.
Context `{verbs : fmt.Verbs}.
Implicit Types (names : validation.NamespaceNames).
Implicit Types (l includesList excludesList : list string) (ns : string).

Lemma validateNamespaceName_fmap `{names : validation.NamespaceNames} ns :
  validateNamespaceName ns
  = errInvalidNamespace ns <$> validation.ValidateNamespaceName ns false.
Proof.
  unfold validateNamespaceName.
  assert (∀ (msgs : list string) (errs : list errors.error),
            foldl (λ errs msg, errs ++ [errInvalidNamespace ns msg]) errs msgs
            = errs ++ (errInvalidNamespace ns <$> msgs)) as Hloop.
  { induction msgs as [|msg msgs IH]; intros errs; simpl.
    - by rewrite app_nil_r.
    - by rewrite IH, <-app_assoc. }
  apply Hloop.
Qed.

(** One loop of the namespace validator. *)
Lemma namespace_loop `{names : validation.NamespaceNames}
    (errs : list errors.error) l :
  foldl (λ errs itm,
           if negb (String.eqb itm "*") then errs ++ validateNamespaceName itm
           else errs) errs l
  = errs ++ (filter (λ itm, itm ≠ "*") l ≫= validateNamespaceName).
Proof.
  revert errs. induction l as [|itm l IH]; intros errs; cbn [foldl].
  - by rewrite app_nil_r.
  - rewrite IH, filter_cons.
    destruct (String.eqb_spec itm "*") as [->|Hne]; cbn [negb].
    + by rewrite decide_False by naive_solver.
    + rewrite decide_True by done. by rewrite bind_cons, <-app_assoc.
Qed.

Lemma elem_of_validated_names l ns :
  ns ∈ validated_names l ↔ ns ≠ "*" ∧ ns ∈ l.
Proof.
  unfold validated_names.
  by rewrite list_elem_of_filter, elem_of_List, elem_of_NewString.
Qed.

Lemma bind_nil_iff {A B} (f : A → list B) (xs : list A) :
  xs ≫= f = [] ↔ ∀ x, x ∈ xs → f x = [].
Proof.
  induction xs as [|x xs IH].
  - split; [|done]. intros _ x []%elem_of_nil.
  - rewrite bind_cons, app_nil, IH. set_solver.
Qed.

(** X11: the namespace validator reports, in this order, the violations of
    [ValidateIncludesExcludes], then the broken rules of every distinct
    include other than "*", then those of every distinct exclude other than
    "*"; nothing found earlier is lost, and a name on both lists is
    reported on twice. *)
Theorem ValidateNamespaceIncludesExcludes_eq `{names : validation.NamespaceNames}
    includesList excludesList :
  ValidateNamespaceIncludesExcludes includesList excludesList
  = ValidateIncludesExcludes includesList excludesList
    ++ (validated_names includesList ≫= validateNamespaceName)
    ++ (validated_names excludesList ≫= validateNamespaceName)
  ∧ ValidateIncludesExcludes includesList excludesList
    `prefix_of` ValidateNamespaceIncludesExcludes includesList excludesList
  ∧ length (ValidateNamespaceIncludesExcludes includesList excludesList)
    = length (ValidateIncludesExcludes includesList excludesList)
      + sum_list ((λ ns, length (validation.ValidateNamespaceName ns false))
                    <$> validated_names includesList)
      + sum_list ((λ ns, length (validation.ValidateNamespaceName ns false))
                    <$> validated_names excludesList).
Proof.
  assert (ValidateNamespaceIncludesExcludes includesList excludesList
          = ValidateIncludesExcludes includesList excludesList
            ++ (validated_names includesList ≫= validateNamespaceName)
            ++ (validated_names excludesList ≫= validateNamespaceName)) as Heq.
  { unfold ValidateNamespaceIncludesExcludes, validated_names. cbv zeta.
    by rewrite !namespace_loop, <-app_assoc. }
  assert (∀ l, length (l ≫= validateNamespaceName)
               = sum_list ((λ ns, length (validation.ValidateNamespaceName ns false))
                             <$> l)) as Hlen.
  { induction l as [|ns l IH]; [done|]. rewrite bind_cons, fmap_cons.
    cbn [sum_list]. by rewrite length_app, IH, validateNamespaceName_fmap, length_fmap. }
  split; [exact Heq|]. split.
  - rewrite Heq. by eexists.
  - rewrite Heq, !length_app, !Hlen. lia.
Qed.

(** X12: the namespace validator finds nothing exactly when
    [ValidateIncludesExcludes] finds nothing and every entry of either list
    other than "*" is a valid namespace name. *)
Theorem ValidateNamespaceIncludesExcludes_nil `{names : validation.NamespaceNames}
    includesList excludesList :
  ValidateNamespaceIncludesExcludes includesList excludesList = [] ↔
  ValidateIncludesExcludes includesList excludesList = []
  ∧ ∀ ns, ns ∈ includesList ∨ ns ∈ excludesList → ns ≠ "*" →
          validation.ValidateNamespaceName ns false = [].
Proof.
  unfold ValidateNamespaceIncludesExcludes. cbv zeta.
  rewrite !namespace_loop, !app_nil, !bind_nil_iff.
  fold (validated_names includesList) (validated_names excludesList).
  assert (∀ ns, validateNamespaceName ns = []
                ↔ validation.ValidateNamespaceName ns false = []) as Hnil.
  { intros ns. rewrite validateNamespaceName_fmap.
    split; [apply fmap_nil_inv|by intros ->]. }
  setoid_rewrite elem_of_validated_names. setoid_rewrite Hnil.
  naive_solver.
Qed.

(** X13: the wildcard is never handed to the namespace validator: two
    validators that agree on every name other than "*" give the same
    report. *)
Theorem ValidateNamespaceIncludesExcludes_wildcard
    (names1 names2 : validation.NamespaceNames) includesList excludesList :
  (∀ ns, ns ≠ "*" →
         validation.ValidateNamespaceName (NamespaceNames := names1) ns false
         = validation.ValidateNamespaceName (NamespaceNames := names2) ns false) →
  ValidateNamespaceIncludesExcludes (names := names1) includesList excludesList
  = ValidateNamespaceIncludesExcludes (names := names2) includesList excludesList.
Proof.
  intros Hagree.
  assert (∀ l, validated_names l ≫= validateNamespaceName (names := names1)
               = validated_names l ≫= validateNamespaceName (names := names2)) as Hbind.
  { intros l.
    assert (Forall (λ ns, ns ≠ "*") (validated_names l)) as Hall.
    { apply Forall_forall. by intros ns [? _]%elem_of_validated_names. }
    induction Hall as [|ns l' Hns _ IH]; [done|]. rewrite !bind_cons.
    f_equal; [|exact IH].
    by rewrite !validateNamespaceName_fmap, Hagree. }
  unfold ValidateNamespaceIncludesExcludes. cbv zeta.
  rewrite !namespace_loop.
  fold (validated_names includesList) (validated_names excludesList).
  by rewrite !Hbind.
Qed.

End namespace_facts.

Section namespace_examples.
#[local] Existing Instance sample_verbs.

Lemma picky_agrees ns :
  ns ≠ "*" →
  validation.ValidateNamespaceName (NamespaceNames := picky_names) ns false
  = validation.ValidateNamespaceName (NamespaceNames := sample_names) ns false.
Proof. intros Hne. cbn. by destruct (String.eqb_spec ns "*"). Qed.

(** X13 at two validators that differ on "*" alone; the empty name is
    reported once for each list that holds it. *)
Lemma ValidateNamespaceIncludesExcludes_wildcard_witness :
  (∀ ns, ns ≠ "*" →
         validation.ValidateNamespaceName (NamespaceNames := picky_names) ns false
         = validation.ValidateNamespaceName (NamespaceNames := sample_names) ns false)
  ∧ ValidateNamespaceIncludesExcludes (names := picky_names) ["*"] ["kube-system"; ""]
    = ValidateNamespaceIncludesExcludes (names := sample_names) ["*"] ["kube-system"; ""]
  ∧ length (ValidateNamespaceIncludesExcludes (names := sample_names)
              ["*"] ["kube-system"; ""]) = 1.
Proof.
  split; [exact picky_agrees|]. split; [|reflexivity].
  exact (ValidateNamespaceIncludesExcludes_wildcard picky_names sample_names
           ["*"] ["kube-system"; ""] picky_agrees).
Defined.

End namespace_examples.

(** * Further properties of the generator *)
Section generator_more.
Implicit Types (mapFunc : string → string) (ie : IncludesExcludes).
Implicit Types (rawIncludes rawExcludes : list string) (item k : string).

Lemma IncludesExcludes_eq ie1 ie2 :
  String_ (includes ie1) = String_ (includes ie2) →
  String_ (excludes ie1) = String_ (excludes ie2) →
  ie1 = ie2.
Proof. destruct ie1 as [[?] [?]], ie2 as [[?] [?]]; simpl. by intros -> ->. Qed.

Lemma mapped_from_ext mapFunc (raw1 raw2 : list string) k :
  (∀ x, x ∈ raw1 ↔ x ∈ raw2) →
  mapped_from mapFunc raw1 k ↔ mapped_from mapFunc raw2 k.
Proof. intros Hraw. unfold mapped_from. by setoid_rewrite Hraw. Qed.

(** X14: the generator never puts the empty string into either set. *)
Theorem GenerateIncludesExcludes_no_empty rawIncludes rawExcludes mapFunc :
  ¬ ("" ∈ String_ (includes (GenerateIncludesExcludes rawIncludes rawExcludes mapFunc)))
  ∧ ¬ ("" ∈ String_ (excludes (GenerateIncludesExcludes rawIncludes rawExcludes mapFunc))).
Proof.
  rewrite elem_of_Generate_includes, elem_of_Generate_excludes.
  unfold mapped_from. naive_solver.
Qed.

(** X15: the generated filter depends on the raw lists only through the
    sets of their entries: order and repetitions play no part. *)
Theorem GenerateIncludesExcludes_sets
    rawIncludes rawExcludes (rawIncludes2 rawExcludes2 : list string) mapFunc :
  (∀ x, x ∈ rawIncludes ↔ x ∈ rawIncludes2) →
  (∀ x, x ∈ rawExcludes ↔ x ∈ rawExcludes2) →
  GenerateIncludesExcludes rawIncludes rawExcludes mapFunc
  = GenerateIncludesExcludes rawIncludes2 rawExcludes2 mapFunc.
Proof.
  intros Hin Hex. apply IncludesExcludes_eq; apply set_eq; intros k.
  - rewrite !elem_of_Generate_includes, Hin.
    by rewrite (mapped_from_ext _ _ _ _ Hin).
  - rewrite !elem_of_Generate_excludes.
    by rewrite (mapped_from_ext _ _ _ _ Hex).
Qed.

Lemma GenerateIncludesExcludes_sets_witness :
  (∀ x, x ∈ ["pods"; "*"; "pods"] ↔ x ∈ ["*"; "pods"])
  ∧ (∀ x, x ∈ ["cm"; "secrets"] ↔ x ∈ ["secrets"; "cm"])
  ∧ GenerateIncludesExcludes ["pods"; "*"; "pods"] ["cm"; "secrets"] id
    = GenerateIncludesExcludes ["*"; "pods"] ["secrets"; "cm"] id.
Proof.
  assert (∀ x, x ∈ ["pods"; "*"; "pods"] ↔ x ∈ ["*"; "pods"]) as Hin by set_solver.
  assert (∀ x, x ∈ ["cm"; "secrets"] ↔ x ∈ ["secrets"; "cm"]) as Hex by set_solver.
  split; [exact Hin|]. split; [exact Hex|].
  exact (GenerateIncludesExcludes_sets _ _ _ _ id Hin Hex).
Defined.

End generator_more.

(** * Further properties of resource resolution *)
Section resource_more.
Context `{helper : discovery.Helper}.
Implicit Types (rawIncludes rawExcludes : list string) (item : string).

(** X16: one raw include that is neither empty nor the wildcard and fails
    to resolve keeps the generated filter from including everything: the
    includes hold it, so they are not empty, and [IncludeEverything] is
    false. *)
Theorem GetResourceIncludesExcludes_not_everything rawIncludes rawExcludes item :
  item ∈ rawIncludes →
  item ≠ "" →
  item ≠ "*" →
  resolution_fails item →
  String_ (includes (GetResourceIncludesExcludes rawIncludes rawExcludes)) ≠ ∅
  ∧ IncludeEverything (GetResourceIncludesExcludes rawIncludes rawExcludes) = false.
Proof.
  intros Hin Hne Hstar Hfails%resolve_fallback.
  assert (item ∈ String_ (includes (GetResourceIncludesExcludes rawIncludes rawExcludes)))
    as Hkept.
  { apply elem_of_Generate_includes. right. by exists item. }
  split; [set_solver|].
  apply not_true_is_false. intros [_ [Hempty|Hsingle]]%IncludeEverything_all.
  - set_solver.
  - rewrite Hsingle in Hkept. set_solver.
Qed.

End resource_more.

Section resource_more_examples.
#[local] Existing Instance small_cluster.

Lemma GetResourceIncludesExcludes_not_everything_witness :
  "widgets" ∈ ["widgets"] ∧ "widgets" ≠ "" ∧ "widgets" ≠ "*"
  ∧ resolution_fails "widgets"
  ∧ String_ (includes (GetResourceIncludesExcludes ["widgets"] [])) ≠ ∅
  ∧ IncludeEverything (GetResourceIncludesExcludes ["widgets"] []) = false.
Proof.
  assert ("widgets" ∈ ["widgets"]) as Hin by set_solver.
  assert ("widgets" ≠ "") as Hne by done.
  assert ("widgets" ≠ "*") as Hstar by done.
  split; [exact Hin|]. split; [exact Hne|]. split; [exact Hstar|].
  split; [exact widgets_unresolved|].
  exact (GetResourceIncludesExcludes_not_everything ["widgets"] [] "widgets"
           Hin Hne Hstar widgets_unresolved).
Defined.

End resource_more_examples.

(** * A malformed pattern at the head of the scan *)
Section malformed_first.
Context `{G : Glob}.
Implicit Types (ie : IncludesExcludes) (gss : globStringSet) (p q c : string).

Lemma match_first_malformed gss c p :
  p ∈ String_ gss → malformed p → (∀ q, q ∈ String_ gss → String.le p q) →
  match_ gss c = false.
Proof.
  intros Hp Hbad Hfirst. apply match_false.
  intros (p0 & Hp0 & Hmatch & Hreach).
  destruct (decide (p0 = p)) as [->|Hne].
  { by apply (malformed_not_matches p c). }
  apply (Hreach p); [done| |done].
  split; [by apply Hfirst|].
  intros Hle. apply Hne. apply (anti_symm String.le); [done|by apply Hfirst].
Qed.

(** X17: when the exclude pattern that sorts first is malformed, the
    excludes have no effect: the filter decides as it would without any
    exclude. *)
Theorem malformed_first_exclude ie c p :
  p ∈ String_ (excludes ie) →
  malformed p →
  (∀ q, q ∈ String_ (excludes ie) → String.le p q) →
  ShouldInclude ie c
  = ShouldInclude {| includes := includes ie; excludes := newGlobStringSet |} c.
Proof.
  intros Hp Hbad Hfirst. unfold ShouldInclude. cbn [includes excludes].
  by rewrite (match_first_malformed (excludes ie) c p).
Qed.

(** X18: when the include pattern that sorts first is malformed and the
    includes do not hold the literal "*", the filter rejects every
    candidate. *)
Theorem malformed_first_include ie c p :
  p ∈ String_ (includes ie) →
  malformed p →
  (∀ q, q ∈ String_ (includes ie) → String.le p q) →
  "*" ∉ String_ (includes ie) →
  ShouldInclude ie c = false.
Proof.
  intros Hp Hbad Hfirst Hstar. apply not_true_is_false.
  intros [_ [Hempty|[Hin|Hmatch]]]%ShouldInclude_true.
  - rewrite Hempty in Hp. set_solver.
  - done.
  - by rewrite (match_first_malformed (includes ie) c p) in Hmatch.
Qed.

End malformed_first.

Section malformed_first_examples.
#[local] Existing Instance gobwas.lib.

(** X17 at the excludes "![" and "*": nothing is excluded. *)
Lemma malformed_first_exclude_witness :
  "![" ∈ String_ (excludes ie_bang_bracket_star)
  ∧ malformed "!["
  ∧ (∀ q, q ∈ String_ (excludes ie_bang_bracket_star) → String.le "![" q)
  ∧ ShouldInclude ie_bang_bracket_star "a" = true.
Proof.
  assert ("![" ∈ String_ (excludes ie_bang_bracket_star)) as Hin.
  { apply elem_of_Insert. set_solver. }
  assert (∀ q, q ∈ String_ (excludes ie_bang_bracket_star) → String.le "![" q)
    as Hfirst.
  { intros q Hq. apply elem_of_Insert in Hq. set_unfold in Hq.
    destruct Hq as [[->|[->|[]]]|[]]; done. }
  split; [exact Hin|]. split; [exact bang_bracket_malformed|].
  split; [exact Hfirst|].
  exact (malformed_first_exclude ie_bang_bracket_star "a" "!["
           Hin bang_bracket_malformed Hfirst).
Defined.

(** X18 at the includes "[" and "a": not even "a" is accepted. *)
Lemma malformed_first_include_witness :
  "[" ∈ String_ (includes (Includes NewIncludesExcludes ["a"; "["]))
  ∧ malformed "["
  ∧ (∀ q, q ∈ String_ (includes (Includes NewIncludesExcludes ["a"; "["])) →
          String.le "[" q)
  ∧ ¬ ("*" ∈ String_ (includes (Includes NewIncludesExcludes ["a"; "["])))
  ∧ ShouldInclude (Includes NewIncludesExcludes ["a"; "["]) "a" = false.
Proof.
  assert ("[" ∈ String_ (includes (Includes NewIncludesExcludes ["a"; "["]))) as Hin.
  { apply elem_of_Insert. set_solver. }
  assert (∀ q, q ∈ String_ (includes (Includes NewIncludesExcludes ["a"; "["])) →
               String.le "[" q) as Hfirst.
  { intros q Hq. apply elem_of_Insert in Hq. set_unfold in Hq.
    destruct Hq as [[->|[->|[]]]|[]]; done. }
  assert ("*" ∉ String_ (includes (Includes NewIncludesExcludes ["a"; "["]))) as Hstar.
  { intros Hq. apply elem_of_Insert in Hq. set_unfold in Hq.
    destruct Hq as [[|[|[]]]|[]]; done. }
  split; [exact Hin|]. split; [exact bracket_malformed|].
  split; [exact Hfirst|]. split; [exact Hstar|].
  exact (malformed_first_include (Includes NewIncludesExcludes ["a"; "["]) "a" "["
           Hin bracket_malformed Hfirst Hstar).
Defined.

End malformed_first_examples.
